(** * VectOptAL: confidence-region geometry and dominance engine

    A shallow embedding of [vectoptal/utils/utils.py] and
    [vectoptal/confidence_region.py].

    Conventions of the embedding.
    - A numpy float is an exact rational ([Q]): rounding is outside the
      model.  Infinities and nan appear only where the control flow of the
      code depends on them: the value of a solved problem ([extQ]) and the
      0/0 of [line_seg_pt_intersect_at_dim] ([NanPoint]).
    - A one-dimensional array is a [list Q]; a two-dimensional array is the
      list of its rows.  Elementwise operations follow numpy's broadcasting
      rule ([broadcast]).
    - A Python function that may raise returns a [result]; the exception
      classes are the constructors of [exn].  A method that assigns to
      [self] is a [method]: it returns the state of the object next to its
      result.
    - The conic solver (cvxpy), [np.sqrt], [np.linalg.inv] and
      [scipy.linalg.sqrtm] are external: they are Section variables.  The
      class [Order] is not among the sources: its two members in use are
      the fields of a record. *)

From Stdlib Require Import String.
From Stdlib Require Import QArith Qminmax Lqa.
From Stdlib Require Import List Bool Arith Lia.
Import ListNotations.

Open Scope Q_scope.

(** ** Exceptions and the error monad *)

Inductive exn : Type :=
| AssertionError
| ValueError
| TypeError
| AttributeError
| IndexError
| NotImplementedError
| SolverError.

Inductive result (A : Type) : Type :=
| Ok (a : A)
| Raise (e : exn).

Arguments Ok {A} a.
Arguments Raise {A} e.

Definition bind {A B : Type} (m : result A) (k : A -> result B) : result B :=
  match m with
  | Ok a => k a
  | Raise e => Raise e
  end.

Notation "x <- m ;; k" := (bind m (fun x => k))
  (at level 61, m at next level, right associativity).

Definition assert (b : bool) : result unit :=
  if b then Ok tt else Raise AssertionError.

(** ** Arrays *)

Definition vec : Type := list Q.
Definition matrix : Type := list vec.

Definition Qlt_bool (x y : Q) : bool := negb (Qle_bool y x).
Definition Qge_bool (x y : Q) : bool := Qle_bool y x.

Definition map2 {A B C : Type} (f : A -> B -> C) (a : list A) (b : list B)
  : list C :=
  map (fun p => f (fst p) (snd p)) (combine a b).

(** Elementwise binary operation on two one-dimensional arrays, with
    numpy's broadcasting rule: equal lengths, or one operand of length 1;
    any other pair of shapes is a [ValueError]. *)
Definition broadcast {A : Type} (f : Q -> Q -> A) (a b : vec)
  : result (list A) :=
  if (length a =? length b)%nat then Ok (map2 f a b)
  else match a, b with
       | [x], _ => Ok (map (f x) b)
       | _, [y] => Ok (map (fun x => f x y) a)
       | _, _ => Raise ValueError
       end.

(** [np.any] and [np.all] on a boolean array. *)
Definition np_any (l : list bool) : bool := existsb (fun b => b) l.
Definition np_all (l : list bool) : bool := forallb (fun b => b) l.

(** An argument documented as "a scalar or a vector". *)
Inductive scalar_or_vector : Type :=
| Scalar (s : Q)
| Vector (v : vec).

(** [np.array(x).size] *)
Definition size (x : scalar_or_vector) : nat :=
  match x with
  | Scalar _ => 1%nat
  | Vector v => length v
  end.

(** [a op x] for a one-dimensional [a] and a scalar-or-vector [x]. *)
Definition broadcast_sv (f : Q -> Q -> Q) (a : vec) (x : scalar_or_vector)
  : result vec :=
  match x with
  | Scalar s => Ok (map (fun y => f y s) a)
  | Vector v => broadcast f a v
  end.

(** ** Geometric primitives (utils.py) *)

(** [hyperrectangle_check_intersection]: the Python [or] evaluates its
    second operand only when the first is false. *)
Definition hyperrectangle_check_intersection
    (lower1 upper1 lower2 upper2 : vec) : result bool :=
  c1 <- broadcast Qge_bool lower1 upper2 ;;
  if np_any c1 then Ok false
  else
    c2 <- broadcast Qle_bool upper1 lower2 ;;
    if np_any c2 then Ok false else Ok true.

(** [itertools.product] of the pools, as the Python documentation defines it:
    [result = [[]]; for pool in pools:
       result = [x+[y] for x in result for y in pool]]. *)
Definition product_step {A : Type} (res : list (list A)) (pool : list A)
  : list (list A) :=
  flat_map (fun x => map (fun y => x ++ [y]) pool) res.

Definition itertools_product {A : Type} (pools : list (list A))
  : list (list A) :=
  fold_left product_step pools [[]].

(** [hyperrectangle_get_vertices]: [zip] stops at the shorter argument. *)
Definition hyperrectangle_get_vertices (lower upper : vec) : matrix :=
  let a := map (fun p => [fst p; snd p]) (combine lower upper) in
  itertools_product a.

(** [hyperrectangle_get_region_matrix]: [[I; -I]] and [[lower; -upper]]. *)
Definition eye_row (dim i : nat) (sign : Q) : vec :=
  map (fun j => if (i =? j)%nat then sign else 0) (seq 0 dim).

Definition hyperrectangle_get_region_matrix (lower upper : vec)
  : matrix * vec :=
  let dim := length lower in
  let region_matrix :=
    map (fun i => eye_row dim i 1) (seq 0 dim)
    ++ map (fun i => eye_row dim i (-1)) (seq 0 dim) in
  let region_boundary := lower ++ map Qopp upper in
  (region_matrix, region_boundary).

(** ** Gap statistics (utils.py) *)

Definition dot (u v : vec) : Q :=
  fold_right Qplus 0 (map2 Qmult u v).

(** [(n_rows, n_cols)] of a two-dimensional array.  A matrix without rows
    does not record its column count; it is taken as 0. *)
Definition shape (m : matrix) : nat * nat :=
  (length m, match m with [] => 0%nat | r :: _ => length r end).

(** [np.matmul(W, v)] for a two-dimensional [W] and a one-dimensional [v]. *)
Definition matmul (W : matrix) (v : vec) : result vec :=
  if forallb (fun row => (length row =? length v)%nat) W
  then Ok (map (fun row => dot row v) W)
  else Raise ValueError.

(** The two shapes in which an alpha vector reaches [get_smallmij]: the
    flat shape [(n,)] and the column shape [(n,1)] that the docstrings
    document and [get_alpha_vec] returns. *)
Inductive alpha_array : Type :=
| Flat (a : vec)
| Column (a : vec).

Definition alpha_entries (alpha_vec : alpha_array) : vec :=
  match alpha_vec with Flat a => a | Column a => a end.

(** [prod / alpha_vec], flattened in row-major order.  Against a column of
    shape [(n,1)] the flat [prod] of shape [(k,)] broadcasts to the
    [(n,k)] array whose entry [(a, b)] is [prod[b] / alpha_vec[a]]. *)
Definition divide_by_alpha (prod : vec) (alpha_vec : alpha_array)
  : result vec :=
  match alpha_vec with
  | Flat a => broadcast Qdiv prod a
  | Column a => Ok (flat_map (fun al => map (fun p => p / al) prod) a)
  end.

(** [arr.min()]: a reduction over every entry; an empty array has no
    minimum. *)
Definition array_min (l : vec) : result Q :=
  match l with
  | [] => Raise ValueError
  | x :: r => Ok (fold_left Qmin r x)
  end.

Definition get_smallmij (vi vj : vec) (W : matrix) (alpha_vec : alpha_array)
  : result Q :=
  diff <- broadcast Qminus vj vi ;;
  prod <- matmul W diff ;;
  let prod := map (fun p => if Qlt_bool p 0 then 0 else p) prod in
  quot <- divide_by_alpha prod alpha_vec ;;
  array_min quot.

(** Python's builtin [max(a, b)]: [b] only when it is strictly greater. *)
Definition py_max (a b : Q) : Q := if Qlt_bool a b then b else a.

(** [arr[i] = x] on a one-dimensional array *)
Fixpoint set_nth (i : nat) (x : Q) (l : vec) : vec :=
  match l, i with
  | [], _ => []
  | _ :: t, O => x :: t
  | h :: t, S i' => h :: set_nth i' x t
  end.

(** A [for] loop that threads a state and stops at the first exception. *)
Fixpoint for_state {S A : Type} (body : S -> A -> result S) (l : list A)
    (s : S) : result S :=
  match l with
  | [] => Ok s
  | x :: t => s' <- body s x ;; for_state body t s'
  end.

Definition get_delta (mu : matrix) (W : matrix) (alpha_vec : alpha_array)
  : result matrix :=
  let num_points := length mu in
  let delta_values := repeat 0 num_points in
  delta_values <-
    for_state (fun delta_values i =>
      for_state (fun delta_values j =>
        let vi := nth i mu [] in
        let vj := nth j mu [] in
        mij <- get_smallmij vi vj W alpha_vec ;;
        Ok (set_nth i (py_max (nth i delta_values 0) mij) delta_values))
      (seq 0 num_points) delta_values)
    (seq 0 num_points) delta_values ;;
  Ok (map (fun d => [d]) delta_values).

(** The formula of m(i,j) as the specification words it:
    the minimum over rows k of max(0, (W(vj - vi))_k) / alpha_k. *)
Definition smallmij_formula (vi vj : vec) (W : matrix) (alpha : vec) : vec :=
  map2 (fun row al => Qmax 0 (dot row (map2 Qminus vj vi)) / al) W alpha.

(** ** The ordering and the external solver *)

(** The members of [vectoptal.order.Order] that the regions use:
    [order.ordering_cone.W] and [order.dominates]. *)
Record Order : Type := {
  ordering_cone_W : matrix;
  dominates : vec -> vec -> bool
}.

(** Modelled from the spec: [Order.dominates] of the cone ordering, whose
    class is not among the sources; [dominates(p, q)] holds iff
    [W(p - q) >= 0] on every row. *)
Definition cone_order (cone_matrix : matrix) : Order :=
  {| ordering_cone_W := cone_matrix;
     dominates := fun p q =>
       forallb (fun row => Qle_bool 0 (dot row (map2 Qminus p q)))
               cone_matrix |}.

Inductive solver_name : Type :=
| DEFAULT   (* prob.solve() *)
| SCS.      (* prob.solve(solver=cp.SCS) *)

(** [prob.value] is a float that may be infinite. *)
Inductive extQ : Type :=
| Finite (q : Q)
| PosInf
| NegInf.

Definition extQ_opp (x : extQ) : extQ :=
  match x with
  | Finite q => Finite (- q)
  | PosInf => NegInf
  | NegInf => PosInf
  end.

Definition extQ_lt_Q (x : extQ) (y : Q) : bool :=
  match x with
  | Finite q => Qlt_bool q y
  | PosInf => false
  | NegInf => true
  end.

(** What a finished [prob.solve] leaves behind: [prob.status],
    [prob.value] and the value of the (first) variable. *)
Record solution : Type := {
  status : option string;
  value : option extQ;
  x_value : option vec
}.

Inductive solve_outcome : Type :=
| Solved (s : solution)
| Fails.   (* cp.error.SolverError *)

(** The data of an ellipsoid constraint
    [norm(Qsqrt @ (x - center)) <= alpha]. *)
Record ellipsoid_constraint : Type := {
  Qsqrt : matrix;
  about : vec;
  radius : scalar_or_vector
}.

(** One constructor per [cp.Problem] that the code builds, with the data
    it is built from. *)
Inductive problem : Type :=
| AlphaProblem (f : vec) (A : list matrix) (b c d : list vec)
| PointCoverProblem (cone : matrix) (shift : vec) (eps : Q)
| RectCoverProblem (obj1_matrix : matrix) (obj1_boundary : vec)
    (obj2_matrix : matrix) (obj2_boundary : vec)
    (cone_matrix : matrix) (slackness : scalar_or_vector)
| EllipsoidDominatedProblem (cons1 cons2 : ellipsoid_constraint)
    (objective : vec)
| EllipsoidCoverProblem (cons1 cons2 : ellipsoid_constraint)
    (cone_matrix : matrix) (slackness : scalar_or_vector).

Definition exn_eqb (e1 e2 : exn) : bool :=
  match e1, e2 with
  | AssertionError, AssertionError
  | ValueError, ValueError
  | TypeError, TypeError
  | AttributeError, AttributeError
  | IndexError, IndexError
  | NotImplementedError, NotImplementedError
  | SolverError, SolverError => true
  | _, _ => false
  end.

(** [try: body except e: handler] *)
Definition try_except {A : Type} (body : result A) (e : exn)
    (handler : result A) : result A :=
  match body with
  | Ok a => Ok a
  | Raise e' => if exn_eqb e e' then handler else Raise e'
  end.

(** A [for] loop whose body may [return]: [Some r] is an early return. *)
Fixpoint for_each {A R : Type} (l : list A) (body : A -> result (option R))
  : result (option R) :=
  match l with
  | [] => Ok None
  | x :: t =>
      r <- body x ;;
      match r with
      | Some v => Ok (Some v)
      | None => for_each t body
      end
  end.

Definition or_else {R : Type} (r : option R) (fallthrough : R) : R :=
  match r with Some v => v | None => fallthrough end.

(** ** Confidence regions (confidence_region.py) *)

Record RectangularConfidenceRegion : Type := {
  lower : vec;
  upper : vec;
  intersect_iteratively : bool
}.

Record EllipsoidalConfidenceRegion : Type := {
  center : vec;
  sigma : matrix;
  alpha : scalar_or_vector
}.

(** A Python object handed to the class methods and dispatch helpers:
    [isinstance] reads the tag, attribute access reads the fields. *)
Inductive confidence_region : Type :=
| Rectangular (r : RectangularConfidenceRegion)
| Ellipsoidal (e : EllipsoidalConfidenceRegion)
| OtherRegion.

Definition attr_lower (obj : confidence_region) : result vec :=
  match obj with Rectangular r => Ok (lower r) | _ => Raise AttributeError end.
Definition attr_upper (obj : confidence_region) : result vec :=
  match obj with Rectangular r => Ok (upper r) | _ => Raise AttributeError end.
Definition attr_center (obj : confidence_region) : result vec :=
  match obj with
  | Rectangular r =>
      (* the [center] property: (lower + upper) / 2 *)
      s <- broadcast Qplus (lower r) (upper r) ;;
      Ok (map (fun x => x / 2) s)
  | Ellipsoidal e => Ok (center e)
  | OtherRegion => Raise AttributeError
  end.
Definition attr_sigma (obj : confidence_region) : result matrix :=
  match obj with Ellipsoidal e => Ok (sigma e) | _ => Raise AttributeError end.
Definition attr_alpha (obj : confidence_region)
  : result scalar_or_vector :=
  match obj with Ellipsoidal e => Ok (alpha e) | _ => Raise AttributeError end.

(** Methods that assign to [self]: the state after the call is returned
    next to the result, also when the call raises. *)
Definition method (S A : Type) : Type := S -> result A * S.

Definition ret_m {S A : Type} (a : A) : method S A := fun s => (Ok a, s).
Definition bind_m {S A B : Type} (m : method S A) (k : A -> method S B)
  : method S B :=
  fun s => match m s with
           | (Ok a, s') => k a s'
           | (Raise e, s') => (Raise e, s')
           end.
Definition lift_m {S A : Type} (r : result A) : method S A :=
  fun s => (r, s).
Definition self_m {S : Type} : method S S := fun s => (Ok s, s).

Notation "x <~ m ;; k" := (bind_m m (fun x => k))
  (at level 61, m at next level, right associativity).

Definition set_lower (l : vec) : method RectangularConfidenceRegion unit :=
  fun self => (Ok tt, {| lower := l; upper := upper self;
                         intersect_iteratively := intersect_iteratively self |}).
Definition set_upper (u : vec) : method RectangularConfidenceRegion unit :=
  fun self => (Ok tt, {| lower := lower self; upper := u;
                         intersect_iteratively := intersect_iteratively self |}).

(** [RectangularConfidenceRegion.__init__] *)
Definition Rectangular_init (dim : nat) (lower upper : option vec)
    (intersect_iteratively : bool) : result RectangularConfidenceRegion :=
  match lower, upper with
  | Some lo, Some up =>
      _ <- assert ((length lo =? dim)%nat && (length up =? dim)%nat) ;;
      le <- broadcast Qle_bool lo up ;;
      _ <- assert (np_all le) ;;
      Ok {| lower := lo; upper := up;
            intersect_iteratively := intersect_iteratively |}
  | _, _ =>
      Ok {| lower := repeat (- (1000000000000 # 1)) dim;
            upper := repeat (1000000000000 # 1) dim;
            intersect_iteratively := intersect_iteratively |}
  end.

(** [RectangularConfidenceRegion.intersect] *)
Definition intersect (lower' upper' : vec)
  : method RectangularConfidenceRegion unit :=
  self <~ self_m ;;
  overlap <~ lift_m (hyperrectangle_check_intersection
                       (lower self) (upper self) lower' upper') ;;
  if overlap : bool then
    l <~ lift_m (broadcast Qmax (lower self) lower') ;;
    _ <~ set_lower l ;;
    self <~ self_m ;;
    u <~ lift_m (broadcast Qmin (upper self) upper') ;;
    set_upper u
  else
    _ <~ set_lower lower' ;;
    set_upper upper'.

(** [np.diag(covariance.squeeze())] of a square matrix: squeezing a
    [(1,1)] matrix leaves a 0-dimensional array, which [np.diag] rejects. *)
Definition diag_squeeze (covariance : matrix) : result vec :=
  let n := fst (shape covariance) in
  if (n =? 1)%nat then Raise ValueError
  else Ok (map (fun i => nth i (nth i covariance []) 0) (seq 0 n)).

Section External.

(** [np.sqrt] on a float. *)
Variable sqrt : Q -> Q.
(** [np.linalg.inv], which raises [LinAlgError] (a subclass of
    [ValueError]) on a singular matrix, and [scipy.linalg.sqrtm]. *)
Variable inv : matrix -> option matrix.
Variable sqrtm : matrix -> matrix.
(** The conic solver behind [prob.solve]. *)
Variable solve : solver_name -> problem -> solve_outcome.

Definition prob_solve (s : solver_name) (p : problem) : result solution :=
  match solve s p with
  | Solved sol => Ok sol
  | Fails => Raise SolverError
  end.

(** [RectangularConfidenceRegion.update] *)
Definition Rectangular_update (mean : vec) (covariance : matrix)
    (scale : scalar_or_vector) : method RectangularConfidenceRegion unit :=
  _ <~ lift_m (if negb (snd (shape covariance) =? fst (shape covariance))%nat
               then Raise AssertionError else Ok tt) ;;
  d <~ lift_m (diag_squeeze covariance) ;;
  let std := map sqrt d in
  ss <~ lift_m (broadcast_sv Qmult std scale) ;;
  L <~ lift_m (broadcast Qminus mean ss) ;;
  U <~ lift_m (broadcast Qplus mean ss) ;;
  self <~ self_m ;;
  if intersect_iteratively self then intersect L U
  else
    _ <~ set_lower L ;;
    set_upper U.

(** [EllipsoidalConfidenceRegion.update] *)
Definition Ellipsoidal_update (mean : vec) (covariance : matrix)
    (scale : scalar_or_vector) : method EllipsoidalConfidenceRegion unit :=
  _ <~ lift_m (assert (snd (shape covariance) =? fst (shape covariance))%nat) ;;
  _ <~ lift_m (assert (size scale =? 1)%nat) ;;
  fun _ => (Ok tt, {| center := mean; sigma := covariance; alpha := scale |}).

(** [RectangularConfidenceRegion.is_dominated] *)
Definition Rectangular_is_dominated (order : Order)
    (obj1 obj2 : confidence_region) (slackness : scalar_or_vector)
  : result bool :=
  _ <- (if (size slackness =? 1)%nat then Ok tt
        else l1 <- attr_lower obj1 ;;
             assert (size slackness =? length l1)%nat) ;;
  l1 <- attr_lower obj1 ;; u1 <- attr_upper obj1 ;;
  let verts1 := hyperrectangle_get_vertices l1 u1 in
  l2 <- attr_lower obj2 ;; u2 <- attr_upper obj2 ;;
  let verts2 := hyperrectangle_get_vertices l2 u2 in
  r <- for_each verts1 (fun vert1 =>
         for_each verts2 (fun vert2 =>
           shifted <- broadcast_sv Qplus vert2 slackness ;;
           if negb (dominates order shifted vert1)
           then Ok (Some false) else Ok None)) ;;
  Ok (or_else r true).

(** [arr[i]] on a one-dimensional array, for an index that is not
    negative. *)
Definition getitem {A : Type} (l : list A) (i : nat) : result A :=
  match nth_error l i with
  | Some x => Ok x
  | None => Raise IndexError
  end.

Fixpoint map_result {A B : Type} (f : A -> result B) (l : list A)
  : result (list B) :=
  match l with
  | [] => Ok []
  | x :: t => y <- f x ;; ys <- map_result f t ;; Ok (y :: ys)
  end.

(** What [line_seg_pt_intersect_at_dim] returns: [None], a point, or,
    when the float division is 0/0, an array of nan. *)
Inductive intersection : Type :=
| NoIntersection
| PointOnLine (p : vec)
| NanPoint.

(** A float division by zero does not raise: the quotient is nan for a
    zero numerator and an infinity otherwise, and an infinite [t] fails
    one of the two tests.  Its one caller, [is_pt_in_extended_polytope],
    has read the three coordinates before the call (an index out of
    range raises [IndexError] there), so the reads below are in
    range. *)
Definition line_seg_pt_intersect_at_dim (P1 P2 target_pt : vec)
    (target_dim : nat) : intersection :=
  let num := nth target_dim target_pt 0 - nth target_dim P1 0 in
  let den := nth target_dim P2 0 - nth target_dim P1 0 in
  if Qeq_bool den 0 then
    if Qeq_bool num 0 then NanPoint else NoIntersection
  else
    let t := num / den in
    if Qlt_bool t 0 || Qlt_bool 1 t then NoIntersection
    else PointOnLine (map2 Qplus P1 (map (Qmult t) (map2 Qminus P2 P1))).

Definition enumerate {A : Type} (l : list A) : list (nat * A) :=
  combine (seq 0 (length l)) l.

(** [is_pt_in_extended_polytope] *)
Definition is_pt_in_extended_polytope (pt : vec) (polytope : matrix)
    (invert_extension : bool) : result bool :=
  let dim := snd (shape polytope) in
  let comp_func x y :=
    if invert_extension then broadcast Qge_bool x y
    else broadcast Qle_bool x y in
  r <- for_each polytope (fun vert =>
         c <- comp_func vert pt ;;
         if np_all c then Ok (Some true) else Ok None) ;;
  match r with
  | Some b => Ok b
  | None =>
      r <- for_each (seq 0 dim) (fun dim_i =>
        edges_of_interest <-
          for_state (fun edges p1 =>
            for_state (fun edges p2 =>
              if (fst p1 =? fst p2)%nat then Ok edges
              else
                x <- getitem pt dim_i ;;
                if Qle_bool (nth dim_i (snd p1) 0) x
                   && Qle_bool x (nth dim_i (snd p2) 0)
                then Ok (edges ++ [(snd p1, snd p2)])
                else Ok edges)
            (enumerate polytope) edges)
          (enumerate polytope) [] ;;
        for_each edges_of_interest (fun edge =>
          match line_seg_pt_intersect_at_dim (fst edge) (snd edge) pt dim_i with
          | NoIntersection => Ok None
          | NanPoint => Ok None   (* every comparison with nan is False *)
          | PointOnLine p =>
              c <- comp_func p pt ;;
              if np_all c then Ok (Some true) else Ok None
          end)) ;;
      Ok (or_else r false)
  end.

(** [verts @ cone_matrix.transpose()]: every row [v] becomes [W v]. *)
Definition matmul_transpose (verts : matrix) (cone_matrix : matrix)
  : result matrix :=
  map_result (matmul cone_matrix) verts.

(** [RectangularConfidenceRegion.check_dominates] *)
Definition Rectangular_check_dominates (order : Order)
    (obj1 obj2 : confidence_region) (slackness : scalar_or_vector)
  : result bool :=
  let cone_matrix := ordering_cone_W order in
  l1 <- attr_lower obj1 ;; u1 <- attr_upper obj1 ;;
  verts1 <- matmul_transpose (hyperrectangle_get_vertices l1 u1) cone_matrix ;;
  l2 <- attr_lower obj2 ;; u2 <- attr_upper obj2 ;;
  verts2 <- matmul_transpose (hyperrectangle_get_vertices l2 u2) cone_matrix ;;
  r <- for_each verts1 (fun ref_point =>
         inside <- is_pt_in_extended_polytope ref_point verts2 false ;;
         if negb inside then Ok (Some false) else Ok None) ;;
  Ok (or_else r true).

(** cvxpy validates the shapes of the expressions while the constraints
    and the objective are built, before any solve, and raises
    [ValueError]. *)
Variable well_shaped : problem -> bool.
Variable cons_well_shaped : nat -> ellipsoid_constraint -> bool.

Definition cp_Problem (p : problem) : result problem :=
  if well_shaped p then Ok p else Raise ValueError.

(** The problem that [RectangularConfidenceRegion.is_covered] builds
    (the method up to its [cp.Problem] call). *)
Definition Rectangular_cover_problem (order : Order)
    (obj1 obj2 : confidence_region) (slackness : scalar_or_vector)
  : result problem :=
  let cone_matrix := ordering_cone_W order in
  let m := snd (shape cone_matrix) in
  _ <- assert ((size slackness =? 1)%nat || (size slackness =? m)%nat) ;;
  l1 <- attr_lower obj1 ;; u1 <- attr_upper obj1 ;;
  let '(obj1_matrix, obj1_boundary) := hyperrectangle_get_region_matrix l1 u1 in
  l2 <- attr_lower obj2 ;; u2 <- attr_upper obj2 ;;
  let '(obj2_matrix, obj2_boundary) := hyperrectangle_get_region_matrix l2 u2 in
  cp_Problem (RectCoverProblem obj1_matrix obj1_boundary
                obj2_matrix obj2_boundary cone_matrix slackness).

(** [try: prob.solve() except cp.error.SolverError:
    prob.solve(solver=cp.SCS)]: the state of [prob] afterwards. *)
Definition solve_with_fallback (prob : problem) : result solution :=
  try_except (prob_solve DEFAULT prob) SolverError (prob_solve SCS prob).

(** [RectangularConfidenceRegion.is_covered] *)
Definition Rectangular_is_covered (order : Order)
    (obj1 obj2 : confidence_region) (slackness : scalar_or_vector)
  : result bool :=
  prob <- Rectangular_cover_problem order obj1 obj2 slackness ;;
  prob <- solve_with_fallback prob ;;
  match status prob with
  | None => Ok true
  | Some st => Ok (String.eqb st "optimal")
  end.

(** [norm(sqrtm(inv(obj.sigma)) @ (x - obj.center).T) <= obj.alpha] for
    a variable [x] of [output_dim] entries. *)
Definition ellipsoid_cons (output_dim : nat) (obj : confidence_region)
  : result ellipsoid_constraint :=
  sg <- attr_sigma obj ;;
  sg_inv <- match inv sg with
            | Some m => Ok m
            | None => Raise ValueError
            end ;;
  c <- attr_center obj ;;
  a <- attr_alpha obj ;;
  let cons := {| Qsqrt := sqrtm sg_inv; about := c; radius := a |} in
  if cons_well_shaped output_dim cons then Ok cons else Raise ValueError.

(** [EllipsoidalConfidenceRegion.is_dominated] *)
Definition Ellipsoidal_is_dominated (order : Order)
    (obj1 obj2 : confidence_region) (slackness : scalar_or_vector)
  : result bool :=
  c1 <- attr_center obj1 ;;
  let output_dim := length c1 in
  let cone_matrix := ordering_cone_W order in
  let n_rows := fst (shape cone_matrix) in
  let slackness :=
    match slackness with
    | Scalar s => repeat s n_rows
    | Vector [s] => repeat s n_rows
    | Vector v => v
    end in
  _ <- assert (length slackness =? n_rows)%nat ;;
  cons1 <- ellipsoid_cons output_dim obj1 ;;
  cons2 <- ellipsoid_cons output_dim obj2 ;;
  r <- for_each (seq 0 n_rows) (fun n =>
         prob <- cp_Problem (EllipsoidDominatedProblem cons1 cons2
                               (nth n cone_matrix [])) ;;
         prob <- solve_with_fallback prob ;;
         match value prob with
         | None => Raise TypeError
         | Some v =>
             if extQ_lt_Q v (- nth n slackness 0)
             then Ok (Some false) else Ok None
         end) ;;
  Ok (or_else r true).

(** [EllipsoidalConfidenceRegion.check_dominates] *)
Definition Ellipsoidal_check_dominates (order : Order)
    (obj1 obj2 : confidence_region) (slackness : scalar_or_vector)
  : result bool :=
  Raise NotImplementedError.

(** The problem that [EllipsoidalConfidenceRegion.is_covered] builds. *)
Definition Ellipsoidal_cover_problem (order : Order)
    (obj1 obj2 : confidence_region) (slackness : scalar_or_vector)
  : result problem :=
  let cone_matrix := ordering_cone_W order in
  let output_dim := snd (shape cone_matrix) in
  _ <- assert ((size slackness =? 1)%nat
               || (size slackness =? fst (shape cone_matrix))%nat) ;;
  cons1 <- ellipsoid_cons output_dim obj1 ;;
  cons2 <- ellipsoid_cons output_dim obj2 ;;
  cp_Problem (EllipsoidCoverProblem cons1 cons2 cone_matrix slackness).

(** [needle in haystack] on strings *)
Definition str_in (needle haystack : string) : bool :=
  match String.index 0 needle haystack with
  | Some _ => true
  | None => false
  end.

(** [EllipsoidalConfidenceRegion.is_covered]: [in] on a status that is
    [None] is a [TypeError]. *)
Definition Ellipsoidal_is_covered (order : Order)
    (obj1 obj2 : confidence_region) (slackness : scalar_or_vector)
  : result bool :=
  prob <- Ellipsoidal_cover_problem order obj1 obj2 slackness ;;
  prob <- solve_with_fallback prob ;;
  match status prob with
  | None => Raise TypeError
  | Some st => if str_in "infeasible" st then Ok false else Ok true
  end.

(** *** Dispatch helpers *)


Definition confidence_region_check_dominates (order : Order)
    (region1 region2 : confidence_region) : result bool :=
  match region1 with
  | Rectangular _ =>
      Rectangular_check_dominates order region1 region2 (Scalar 0)
  | Ellipsoidal _ =>
      Ellipsoidal_check_dominates order region1 region2 (Scalar 0)
  | OtherRegion => Raise NotImplementedError
  end.


(** *** Solves in utils.py *)

(** The second-order cone program that [get_alpha] builds (the function
    up to its [cp.Problem] call). *)
Definition alpha_problem (rind : nat) (W : matrix) : result problem :=
  let rows := fst (shape W) in
  let D := snd (shape W) in
  row <- getitem W rind ;;
  let f := map Qopp row in
  let A := repeat [repeat 0 D] rows ++ [map (fun i => eye_row D i 1) (seq 0 D)] in
  let b := repeat [0] rows ++ [repeat 0 D] in
  let c := W ++ [repeat 0 D] in
  let d := repeat [0] rows ++ [[1]] in
  cp_Problem (AlphaProblem f A b c d).

(** [get_alpha]: a single [prob.solve()], outside any [try]. *)
Definition get_alpha (rind : nat) (W : matrix) : result extQ :=
  prob <- alpha_problem rind W ;;
  prob <- prob_solve DEFAULT prob ;;
  match value prob with
  | None => Raise TypeError
  | Some v => Ok (extQ_opp v)
  end.

(** [is_covered] of utils.py: a single [prob.solve()], outside any
    [try]. *)
Definition is_covered (vi vj : vec) (eps : Q) (W : matrix) : result bool :=
  shift <- broadcast Qminus vi vj ;;
  prob <- cp_Problem (PointCoverProblem W shift eps) ;;
  prob <- prob_solve DEFAULT prob ;;
  Ok (match x_value prob with Some _ => true | None => false end).

End External.

(** A computable instance of the [sqrt] parameter, to run the model:
    the square root of [n/d] rounded down to a multiple of [1/d]. *)
Definition sqrt_floor (x : Q) : Q :=
  Z.sqrt (Qnum x * Zpos (Qden x)) # Qden x.

(** ** Instances of the external parameters, to run the model *)

(** A solver that answers every problem with the status [st]. *)
Definition solver_reporting (st : option string)
  : solver_name -> problem -> solve_outcome :=
  fun _ _ => Solved {| status := st; value := Some (Finite 0);
                       x_value := Some [] |}.

(** A solver whose default back end raises [SolverError] on every
    problem and whose SCS back end answers [fallback]. *)
Definition primary_fails (fallback : solve_outcome)
  : solver_name -> problem -> solve_outcome :=
  fun s _ => match s with DEFAULT => Fails | SCS => fallback end.

Definition optimal_solution : solution :=
  {| status := Some "optimal"%string; value := Some (Finite (- (1)));
     x_value := Some [1; 0] |}.

Definition all_shapes_ok : problem -> bool := fun _ => true.
Definition all_cons_ok : nat -> ellipsoid_constraint -> bool :=
  fun _ _ => true.
Definition inv_diagonal (m : matrix) : option matrix := Some m.
Definition sqrtm_diagonal (m : matrix) : matrix := m.

Definition identity_2 : matrix := [[1; 0]; [0; 1]].
Definition unit_box : confidence_region :=
  Rectangular {| lower := [0; 0]; upper := [1; 1];
                 intersect_iteratively := false |}.
Definition far_box : confidence_region :=
  Rectangular {| lower := [2; 2]; upper := [3; 3];
                 intersect_iteratively := false |}.
Definition unit_ball : confidence_region :=
  Ellipsoidal {| center := [0; 0]; sigma := identity_2; alpha := Scalar 1 |}.

(** ** Further functions of utils.py *)

(** The membership test that the docstring of
    [hyperrectangle_get_region_matrix] states for its result:
    [region_matrix @ x >= region_boundary], in every row. *)
Definition region_contains (region : matrix * vec) (x : vec) : result bool :=
  prod <- matmul (fst region) x ;;
  c <- broadcast Qge_bool prod (snd region) ;;
  Ok (np_all c).

(** [arr[i] = x] on an array of rows; [i] is in range wherever the
    sources assign. *)
Fixpoint set_item {A : Type} (i : nat) (x : A) (l : list A) : list A :=
  match l, i with
  | [], _ => []
  | _ :: t, O => x :: t
  | h :: t, S i' => h :: set_item i' x t
  end.

Section ExternalUtils.

Variable solve : solver_name -> problem -> solve_outcome.
Variable well_shaped : problem -> bool.

(** [get_alpha_vec]: a column of shape (n_constraint, 1), filled row by
    row. *)
Definition get_alpha_vec (W : matrix) : result (list (list extQ)) :=
  let alpha_vec := repeat [Finite 0] (fst (shape W)) in
  for_state (fun alpha_vec i =>
               a <- get_alpha solve well_shaped i W ;;
               Ok (set_item i [a] alpha_vec))
            (seq 0 (fst (shape W))) alpha_vec.

(** [get_uncovered_set]: the inner [for] has an [else] branch, taken when
    the loop ends without [break]. *)
Definition get_uncovered_set (p_opt_miss p_opt_hat : list nat) (mu : matrix)
    (eps : Q) (W : matrix) : result (list nat) :=
  for_state (fun uncovered_set i =>
      broke <- for_each p_opt_hat (fun j =>
                 vi <- getitem mu i ;;
                 vj <- getitem mu j ;;
                 c <- is_covered solve well_shaped vi vj eps W ;;
                 if c : bool then Ok (Some tt) else Ok None) ;;
      match broke with
      | Some _ => Ok uncovered_set
      | None => Ok (uncovered_set ++ [i])
      end)
    p_opt_miss [].

(** [get_uncovered_size]: the same loops over the points themselves. *)
Definition get_uncovered_size (p_opt_miss p_opt_hat : matrix) (eps : Q)
    (W : matrix) : result nat :=
  for_state (fun count ip =>
      broke <- for_each p_opt_hat (fun jp =>
                 c <- is_covered solve well_shaped ip jp eps W ;;
                 if c : bool then Ok (Some tt) else Ok None) ;;
      match broke with
      | Some _ => Ok count
      | None => Ok (count + 1)%nat
      end)
    p_opt_miss 0%nat.

End ExternalUtils.

(** What a solver leaves when it stops at reduced accuracy: cvxpy's
    status "optimal_inaccurate", with a value in every variable. *)
Definition inaccurate_solution : solution :=
  {| status := Some "optimal_inaccurate"%string; value := Some (Finite 0);
     x_value := Some [0; 0] |}.

(** The box that meets [unit_box] in the origin only. *)
Definition corner_box : confidence_region :=
  Rectangular {| lower := [-1 # 1; -1 # 1]; upper := [0; 0];
                 intersect_iteratively := false |}.

(** A solver that finds every problem infeasible: no value is left in
    the variable. *)
Definition solver_infeasible : solver_name -> problem -> solve_outcome :=
  fun _ _ => Solved {| status := Some "infeasible"%string;
                       value := Some PosInf; x_value := None |}.

(** * Predicates of the specification *)

(** [r] is not the exception [e]. *)
Definition never_raises {A : Type} (e : exn) (r : result A) : Prop :=
  r <> Raise e.


(** Boxes of one dimension that meet in every coordinate, and in some
    coordinate only at an end point. *)
Definition touching_boxes (lower1 upper1 lower2 upper2 : vec) : Prop :=
  length lower1 = length upper1 /\ length lower2 = length upper2 /\
  length lower1 = length lower2 /\
  Forall2 Qle lower1 upper1 /\ Forall2 Qle lower2 upper2 /\
  (forall d, (d < length lower1)%nat ->
     nth d lower1 0 <= nth d upper2 0 /\ nth d lower2 0 <= nth d upper1 0) /\
  (exists d, (d < length lower1)%nat /\
     (nth d lower1 0 == nth d upper2 0 \/ nth d lower2 0 == nth d upper1 0)).

(** [v] is a corner of the box [[lower, upper]]: every coordinate is the
    lower or the upper bound of its dimension. *)
Definition is_vertex (lower upper v : vec) : Prop :=
  Forall2 (fun p x => x = fst p \/ x = snd p) (combine lower upper) v.

(** [v + slackness] for a slackness that is a scalar or a vector of the
    length of [v]. *)
Definition plus_slackness (v : vec) (slackness : scalar_or_vector) : vec :=
  match slackness with
  | Scalar s => map (fun x => x + s) v
  | Vector sv => map2 Qplus v sv
  end.

(** A slackness that is a scalar or a vector of dimension [D]. *)
Definition valid_slackness (D : nat) (slackness : scalar_or_vector) : Prop :=
  match slackness with
  | Scalar _ => True
  | Vector sv => length sv = D
  end.

(** Inputs of the gap statistics with the documented shapes: a cone
    matrix with at least one row and [D] columns, points of dimension
    [D], one strictly positive alpha per row. *)
Definition gap_input (mu W : matrix) (alpha_vec : alpha_array) (D : nat)
  : Prop :=
  W <> [] /\
  Forall (fun row => length row = D) W /\
  Forall (fun v => length v = D) mu /\
  length (alpha_entries alpha_vec) = length W /\
  Forall (fun a => 0 < a) (alpha_entries alpha_vec).

(** [std * scale] for a scale that is a scalar or a vector of the length
    of [std]. *)
Definition times_scale (std : vec) (scale : scalar_or_vector) : vec :=
  match scale with
  | Scalar s => map (fun x => x * s) std
  | Vector sv => map2 Qmult std sv
  end.

(** The box [[L, U]] of an update: [L = mean - sqrt(diag(covariance)) *
    scale] and [U = mean + sqrt(diag(covariance)) * scale]. *)
Definition diagonal_of (covariance : matrix) : vec :=
  map (fun i => nth i (nth i covariance []) 0) (seq 0 (length covariance)).

Definition update_L (sqrt : Q -> Q) (mean : vec) (covariance : matrix)
    (scale : scalar_or_vector) : vec :=
  map2 Qminus mean (times_scale (map sqrt (diagonal_of covariance)) scale).

Definition update_U (sqrt : Q -> Q) (mean : vec) (covariance : matrix)
    (scale : scalar_or_vector) : vec :=
  map2 Qplus mean (times_scale (map sqrt (diagonal_of covariance)) scale).

(** Arguments of [update] of dimension [D]: a [D]-vector, a [D] x [D]
    matrix, a scale that is a scalar or a [D]-vector. *)
Definition update_input (D : nat) (mean : vec) (covariance : matrix)
    (scale : scalar_or_vector) : Prop :=
  length mean = D /\ length covariance = D /\
  Forall (fun row => length row = D) covariance /\
  valid_slackness D scale.

(** The invariant of a rectangular region. *)
Definition lower_le_upper (r : RectangularConfidenceRegion) : Prop :=
  Forall2 Qle (lower r) (upper r).

Definition scale_nonneg (scale : scalar_or_vector) : Prop :=
  match scale with
  | Scalar s => 0 <= s
  | Vector sv => Forall (fun s => 0 <= s) sv
  end.


(** [prod[prod < 0] = 0] on one entry. *)
Definition clip (p : Q) : Q := if Qlt_bool p 0 then 0 else p.

(** Whether design [j] covers design [i]: [is_covered(mu[i, :], mu[j, :],
    eps, W)]. *)
Definition covers (solve : solver_name -> problem -> solve_outcome)
    (well_shaped : problem -> bool) (mu : matrix) (eps : Q) (W : matrix)
    (i j : nat) : result bool :=
  vi <- getitem mu i ;;
  vj <- getitem mu j ;;
  is_covered solve well_shaped vi vj eps W.

(** The retry policy of the specification, as one solver: the answer of
    the primary solver when it returns, and the answer of SCS when the
    primary solver raises [SolverError]. *)
Definition primary_then_SCS
    (solve : solver_name -> problem -> solve_outcome)
  : solver_name -> problem -> solve_outcome :=
  fun _ p =>
    match solve DEFAULT p with
    | Solved sol => Solved sol
    | Fails => solve SCS p
    end.

(** * Properties *)

(** ** Arrays and broadcasting *)

Lemma length_map2 {A B C : Type} (f : A -> B -> C) (a : list A) (b : list B) :
  length (map2 f a b) = Nat.min (length a) (length b).
Proof.
  unfold map2. now rewrite length_map, length_combine.
Qed.

Lemma nth_map2 {A B C : Type} (f : A -> B -> C) (a : list A) (b : list B)
    (d : nat) (da : A) (db : B) (dc : C) :
  (d < length a)%nat -> (d < length b)%nat ->
  nth d (map2 f a b) dc = f (nth d a da) (nth d b db).
Proof.
  revert b d. induction a as [|x a IH]; intros [|y b] [|d] Ha Hb;
    simpl in *; try lia; auto.
  apply IH; lia.
Qed.

Lemma broadcast_same_length {A : Type} (f : Q -> Q -> A) (a b : vec) :
  length a = length b -> broadcast f a b = Ok (map2 f a b).
Proof.
  intros H. unfold broadcast. now rewrite H, Nat.eqb_refl.
Qed.

Lemma np_any_true (l : list bool) :
  np_any l = true <-> exists d, (d < length l)%nat /\ nth d l false = true.
Proof.
  unfold np_any. rewrite existsb_exists. split.
  - intros [x [Hin Hx]]. destruct (In_nth l x false Hin) as [d [Hd Hn]].
    exists d. split; [assumption | congruence].
  - intros [d [Hd Hn]]. exists (nth d l false). split; [|assumption].
    now apply nth_In.
Qed.

Lemma np_all_true (l : list bool) :
  np_all l = true <-> forall d, (d < length l)%nat -> nth d l true = true.
Proof.
  unfold np_all. rewrite forallb_forall. split.
  - intros H d Hd. apply H. now apply nth_In.
  - intros H x Hin. destruct (In_nth l x true Hin) as [d [Hd Hn]].
    rewrite <- Hn. now apply H.
Qed.

Lemma Forall2_nth_Qle (a b : vec) :
  Forall2 Qle a b <->
  length a = length b /\
  forall d, (d < length a)%nat -> nth d a 0 <= nth d b 0.
Proof.
  split.
  - induction 1 as [|x y a b Hxy Hab [IHl IHn]]; simpl.
    + split; [reflexivity | intros d Hd; lia].
    + split; [now f_equal|]. intros [|d] Hd; [assumption|]. apply IHn. lia.
  - revert b. induction a as [|x a IH]; intros [|y b] [Hl Hn];
      simpl in *; try discriminate; constructor.
    + apply (Hn 0%nat). lia.
    + apply IH. split; [lia|]. intros d Hd. apply (Hn (S d)). lia.
Qed.

(** ** hyperrectangle_check_intersection *)

(** For boxes of one dimension the test answers [True] exactly when the
    open intervals overlap in every coordinate. *)
Lemma check_intersection_strict (lower1 upper1 lower2 upper2 : vec) :
  length lower1 = length upper2 -> length upper1 = length lower2 ->
  exists b, hyperrectangle_check_intersection lower1 upper1 lower2 upper2 = Ok b
    /\ (b = true <->
        (forall d, (d < length lower1)%nat -> nth d lower1 0 < nth d upper2 0)
        /\ (forall d, (d < length upper1)%nat ->
              nth d lower2 0 < nth d upper1 0)).
Proof.
  intros H1 H2. unfold hyperrectangle_check_intersection.
  rewrite (broadcast_same_length _ _ _ H1). simpl.
  destruct (np_any (map2 Qge_bool lower1 upper2)) eqn:E1.
  - exists false. split; [reflexivity|]. split; [discriminate|].
    intros [Ha _]. apply np_any_true in E1. destruct E1 as [d [Hd Hn]].
    rewrite length_map2, <- H1, Nat.min_id in Hd.
    rewrite (nth_map2 _ _ _ _ 0 0) in Hn by lia.
    unfold Qge_bool in Hn. apply Qle_bool_iff in Hn.
    specialize (Ha d Hd). lra.
  - rewrite (broadcast_same_length _ _ _ H2). simpl.
    destruct (np_any (map2 Qle_bool upper1 lower2)) eqn:E2.
    + exists false. split; [reflexivity|]. split; [discriminate|].
      intros [_ Hb]. apply np_any_true in E2. destruct E2 as [d [Hd Hn]].
      rewrite length_map2, <- H2, Nat.min_id in Hd.
      rewrite (nth_map2 _ _ _ _ 0 0) in Hn by lia.
      apply Qle_bool_iff in Hn. specialize (Hb d Hd). lra.
    + exists true. split; [reflexivity|]. split; [|reflexivity]. intros _.
      split; intros d Hd.
      * destruct (Qlt_le_dec (nth d lower1 0) (nth d upper2 0)) as [|Hle];
          [assumption|exfalso].
        assert (np_any (map2 Qge_bool lower1 upper2) = true) as Hc;
          [|congruence].
        apply np_any_true. exists d.
        rewrite length_map2, <- H1, Nat.min_id. split; [assumption|].
        rewrite (nth_map2 _ _ _ _ 0 0) by lia.
        unfold Qge_bool. now apply Qle_bool_iff.
      * destruct (Qlt_le_dec (nth d lower2 0) (nth d upper1 0)) as [|Hle];
          [assumption|exfalso].
        assert (np_any (map2 Qle_bool upper1 lower2) = true) as Hc;
          [|congruence].
        apply np_any_true. exists d.
        rewrite length_map2, <- H2, Nat.min_id. split; [assumption|].
        rewrite (nth_map2 _ _ _ _ 0 0) by lia.
        now apply Qle_bool_iff.
Qed.

Lemma unit_squares_touch : touching_boxes [0; 0] [1; 1] [1; 0] [2; 1].
Proof.
  unfold touching_boxes; simpl.
  split; [reflexivity|]. split; [reflexivity|]. split; [reflexivity|].
  split; [repeat constructor; lra|]. split; [repeat constructor; lra|].
  split.
  - intros [|[|d]] Hd; simpl; try lia; split; lra.
  - exists 0%nat. split; [lia|]. right. reflexivity.
Qed.

(** C2, as the claim states it, fails: the unit square and its right
    neighbour share the face x = 1 only, and the test answers [False]. *)
Lemma C2_touching_boxes_counterexample :
  touching_boxes [0; 0] [1; 1] [1; 0] [2; 1] /\
  hyperrectangle_check_intersection [0; 0] [1; 1] [1; 0] [2; 1] <> Ok true.
Proof.
  split; [exact unit_squares_touch | vm_compute; discriminate].
Qed.

(** C2 (amended): boxes that share only a boundary face are reported as
    not intersecting: [hyperrectangle_check_intersection] returns [False],
    because its comparisons [lower1 >= upper2] and [upper1 <= lower2]
    include equality. *)
Theorem C2_touching_boxes_do_not_intersect
    (lower1 upper1 lower2 upper2 : vec) :
  touching_boxes lower1 upper1 lower2 upper2 ->
  hyperrectangle_check_intersection lower1 upper1 lower2 upper2 = Ok false.
Proof.
  intros (H1 & H2 & H3 & _ & _ & _ & [d [Hd Ht]]).
  destruct (check_intersection_strict lower1 upper1 lower2 upper2)
    as [b [Hb Hiff]]; try congruence.
  rewrite Hb. destruct b; [exfalso|reflexivity].
  destruct Hiff as [Hiff _]. destruct (Hiff eq_refl) as [Ha Hc].
  specialize (Ha d Hd). specialize (Hc d ltac:(lia)).
  destruct Ht as [Ht|Ht]; rewrite Ht in *; lra.
Qed.

Lemma C2_touching_boxes_witness :
  touching_boxes [0; 0] [1; 1] [1; 0] [2; 1] /\
  hyperrectangle_check_intersection [0; 0] [1; 1] [1; 0] [2; 1] = Ok false.
Proof.
  split; [exact unit_squares_touch|].
  apply C2_touching_boxes_do_not_intersect.
  exact unit_squares_touch.
Defined.

(** ** hyperrectangle_get_vertices *)

Lemma product_step_pair_length {A : Type} (res : list (list A)) (l u : A) :
  length (product_step res [l; u]) = (2 * length res)%nat.
Proof.
  induction res as [|x r IH]; simpl in *; [reflexivity|]. rewrite IH. lia.
Qed.

Lemma product_step_pair_nth {A : Type} (res : list (list A)) (l u : A) :
  forall k, (k < 2 * length res)%nat ->
    nth k (product_step res [l; u]) [] =
    nth (k / 2) res [] ++ [if Nat.odd k then u else l].
Proof.
  induction res as [|x r IH]; intros k Hk; simpl in Hk; [lia|].
  destruct k as [|[|k]]; try reflexivity.
  replace (S (S k)) with (k + 1 * 2)%nat by lia.
  rewrite Nat.div_add by lia.
  replace (k / 2 + 1)%nat with (S (k / 2)) by lia.
  replace (k + 1 * 2)%nat with (S (S k)) by lia.
  change (Nat.odd (S (S k))) with (Nat.odd k).
  change (nth (S (S k)) (product_step (x :: r) [l; u]) [])
    with (nth k (product_step r [l; u]) []).
  simpl nth at 2. apply IH. lia.
Qed.

(** The product of the pools [[l_0, u_0], ..., [l_(n-1), u_(n-1)]] counts
    in binary, the first pool being the most significant bit. *)
Lemma product_pairs_binary (ps : list (Q * Q)) :
  let V := itertools_product (map (fun p => [fst p; snd p]) ps) in
  length V = (2 ^ length ps)%nat /\
  forall k, (k < 2 ^ length ps)%nat ->
    length (nth k V []) = length ps /\
    forall d, (d < length ps)%nat ->
      nth d (nth k V []) 0 =
      if Nat.testbit k (length ps - 1 - d)
      then snd (nth d ps (0, 0)) else fst (nth d ps (0, 0)).
Proof.
  induction ps as [|p ps IH] using rev_ind; intros V.
  - subst V. simpl. split; [reflexivity|]. intros k Hk.
    assert (k = 0%nat) by lia. subst k. split; [reflexivity|]. intros d Hd. lia.
  - subst V. unfold itertools_product in *.
    rewrite map_app, fold_left_app. cbn [map fold_left].
    destruct IH as [Hlen Hnth].
    set (V := fold_left product_step (map (fun p => [fst p; snd p]) ps) [[]])
      in *.
    rewrite length_app. cbn [length].
    replace (length ps + 1)%nat with (S (length ps)) by lia.
    rewrite Nat.pow_succ_r'. split.
    + rewrite product_step_pair_length. lia.
    + intros k Hk. rewrite product_step_pair_nth by lia.
      assert (k / 2 < 2 ^ length ps)%nat as Hk2
        by (apply Nat.Div0.div_lt_upper_bound; lia).
      destruct (Hnth _ Hk2) as [Hl Hd]. split.
      * rewrite length_app, Hl. simpl. lia.
      * intros d Hdlt.
        destruct (Nat.eq_dec d (length ps)) as [->|Hne].
        -- rewrite app_nth2 by lia. rewrite Hl, Nat.sub_diag.
           rewrite app_nth2 by lia. rewrite Nat.sub_diag.
           replace (S (length ps) - 1 - length ps)%nat with 0%nat by lia.
           rewrite Nat.bit0_odd. simpl. now destruct (Nat.odd k).
        -- rewrite app_nth1 by lia. rewrite (app_nth1 ps) by lia.
           rewrite Hd by lia.
           replace (S (length ps) - 1 - d)%nat
             with (S (length ps - 1 - d)) by lia.
           now rewrite <- Nat.div2_bits.
Qed.

(** C8: for D-dimensional bounds with [lower <= upper],
    [hyperrectangle_get_vertices] returns exactly 2^D points, each of
    them a D-vector lying componentwise within [[lower, upper]], in
    binary-counter order: coordinate [d] of the [k]-th point is [lower_d]
    when the [d]-th most significant of the D bits of [k] is 0 and
    [upper_d] when it is 1. *)
Theorem C8_vertices_binary_counter (lower upper : vec) (D : nat) :
  length lower = D -> length upper = D -> Forall2 Qle lower upper ->
  let V := hyperrectangle_get_vertices lower upper in
  length V = (2 ^ D)%nat /\
  (forall k d, (k < 2 ^ D)%nat -> (d < D)%nat ->
     nth d (nth k V []) 0 =
     if Nat.testbit k (D - 1 - d) then nth d upper 0 else nth d lower 0) /\
  (forall v, In v V ->
     length v = D /\
     forall d, (d < D)%nat -> nth d lower 0 <= nth d v 0 <= nth d upper 0).
Proof.
  intros Hl Hu Hle V. subst V. unfold hyperrectangle_get_vertices.
  pose proof (product_pairs_binary (combine lower upper)) as H.
  cbv zeta in H.
  assert (length (combine lower upper) = D) as Hc
    by (rewrite length_combine; lia).
  rewrite Hc in H. destruct H as [Hlen Hnth].
  assert (forall k d, (k < 2 ^ D)%nat -> (d < D)%nat ->
     nth d (nth k (itertools_product
                     (map (fun p => [fst p; snd p]) (combine lower upper))) [])
         0 =
     if Nat.testbit k (D - 1 - d) then nth d upper 0 else nth d lower 0)
    as Hbits.
  { intros k d Hk Hd. destruct (Hnth k Hk) as [_ Hv]. rewrite (Hv d Hd).
    rewrite combine_nth by lia. reflexivity. }
  split; [assumption|]. split; [assumption|].
  intros v Hin. destruct (In_nth _ _ [] Hin) as [k [Hk Hv]].
  rewrite Hlen in Hk. destruct (Hnth k Hk) as [Hvl _].
  rewrite Hv in Hvl. split; [assumption|].
  intros d Hd. specialize (Hbits k d Hk Hd). rewrite Hv in Hbits.
  apply Forall2_nth_Qle in Hle. destruct Hle as [_ Hle].
  specialize (Hle d ltac:(lia)). rewrite Hbits.
  destruct (Nat.testbit k (D - 1 - d)); lra.
Qed.

Lemma C8_vertices_witness :
  let V := hyperrectangle_get_vertices [0; 0] [1; 1] in
  length V = (2 ^ 2)%nat /\
  (forall k d, (k < 2 ^ 2)%nat -> (d < 2)%nat ->
     nth d (nth k V []) 0 =
     if Nat.testbit k (2 - 1 - d) then nth d [1; 1] 0 else nth d [0; 0] 0) /\
  (forall v, In v V ->
     length v = 2%nat /\
     forall d, (d < 2)%nat -> nth d [0; 0] 0 <= nth d v 0 <= nth d [1; 1] 0).
Proof.
  apply (C8_vertices_binary_counter [0; 0] [1; 1] 2);
    [reflexivity | reflexivity | repeat constructor; lra].
Defined.

Example vertices_unit_square :
  hyperrectangle_get_vertices [0; 0] [1; 1] = [[0; 0]; [0; 1]; [1; 0]; [1; 1]].
Proof. reflexivity. Qed.

Lemma in_product_step {A : Type} (acc : list (list A)) (pool : list A)
    (v : list A) :
  In v (product_step acc pool) <->
  exists a y, In a acc /\ In y pool /\ v = a ++ [y].
Proof.
  unfold product_step. rewrite in_flat_map. split.
  - intros [a [Ha Hv]]. apply in_map_iff in Hv. destruct Hv as [y [Hy Hin]].
    exists a, y. auto.
  - intros [a [y [Ha [Hy ->]]]]. exists a. split; [assumption|].
    apply in_map_iff. exists y. auto.
Qed.

Lemma in_fold_product {A : Type} (pools : list (list A)) :
  forall (acc : list (list A)) (v : list A),
    In v (fold_left product_step pools acc) <->
    exists a w, In a acc /\ v = a ++ w /\
                Forall2 (fun pool x => In x pool) pools w.
Proof.
  induction pools as [|pool rest IH]; intros acc v; cbn [fold_left].
  - split.
    + intros H. exists v, []. rewrite app_nil_r. auto.
    + intros [a [w [Ha [-> Hw]]]]. inversion Hw. now rewrite app_nil_r.
  - rewrite IH. split.
    + intros [a' [w' [Ha' [-> Hw']]]].
      apply in_product_step in Ha'. destruct Ha' as [a [y [Ha [Hy ->]]]].
      exists a, (y :: w'). rewrite <- app_assoc. simpl. auto.
    + intros [a [w [Ha [-> Hw]]]]. inversion Hw as [|pool' y rest' w' Hy Hw']; subst.
      exists (a ++ [y]), w'. rewrite <- app_assoc. simpl.
      repeat split; auto. apply in_product_step. exists a, y. auto.
Qed.

(** The rows of [hyperrectangle_get_vertices] are exactly the corners. *)
Lemma in_vertices_iff (lower upper v : vec) :
  In v (hyperrectangle_get_vertices lower upper) <-> is_vertex lower upper v.
Proof.
  unfold hyperrectangle_get_vertices, itertools_product, is_vertex.
  cbv zeta. split.
  - intros H. apply in_fold_product in H.
    destruct H as [a [w [[<-|[]] [-> Hw]]]]. simpl.
    remember (combine lower upper) as ps eqn:E. clear E.
    revert w Hw. induction ps as [|p ps IH]; intros w Hw; inversion Hw; subst;
      constructor; auto.
    simpl in *. intuition auto.
  - intros H. apply in_fold_product.
    exists [], v. split; [now left|]. split; [reflexivity|].
    induction H as [|p x ps w Hx Hw IH]; simpl; constructor; auto.
    simpl. intuition auto.
Qed.

Lemma is_vertex_length (lower upper v : vec) :
  is_vertex lower upper v -> length v = Nat.min (length lower) (length upper).
Proof.
  intros H. apply Forall2_length in H. now rewrite length_combine in H.
Qed.

(** ** Loops *)

Lemma for_each_ext_in {A R : Type} (l : list A)
    (f g : A -> result (option R)) :
  (forall x, In x l -> f x = g x) -> for_each l f = for_each l g.
Proof.
  induction l as [|x l IH]; intros H; simpl; [reflexivity|].
  rewrite (H x) by now left. destruct (g x) as [[r|]|e]; simpl; auto.
  apply IH. intros y Hy. apply H. now right.
Qed.

(** A loop that returns [False] at the first element failing [test]. *)
Lemma for_each_check {A : Type} (l : list A) (test : A -> bool) :
  for_each l (fun x => Ok (if test x then None else Some false)) =
  Ok (if forallb test l then None else Some false).
Proof.
  induction l as [|x l IH]; simpl; [reflexivity|].
  destruct (test x); simpl; [exact IH | reflexivity].
Qed.

Lemma broadcast_sv_plus (D : nat) (v : vec) (slackness : scalar_or_vector) :
  length v = D -> valid_slackness D slackness ->
  broadcast_sv Qplus v slackness = Ok (plus_slackness v slackness).
Proof.
  intros Hv Hs. destruct slackness as [s|sv]; simpl in *; [reflexivity|].
  apply broadcast_same_length. congruence.
Qed.

(** ** RectangularConfidenceRegion.is_dominated *)

(** C4: for rectangular regions of one dimension with [lower <= upper] and
    a slackness that is a scalar or a vector of that dimension,
    [is_dominated(order, obj1, obj2, slackness)] returns, and it returns
    [True] if and only if [order.dominates(v2 + slackness, v1)] holds for
    every vertex [v1] of [obj1] and every vertex [v2] of [obj2]. *)
Theorem C4_is_dominated_iff_all_vertex_pairs (order : Order)
    (obj1 obj2 : RectangularConfidenceRegion) (slackness : scalar_or_vector)
    (D : nat) :
  length (lower obj1) = D -> length (lower obj2) = D ->
  Forall2 Qle (lower obj1) (upper obj1) ->
  Forall2 Qle (lower obj2) (upper obj2) ->
  valid_slackness D slackness ->
  exists b,
    Rectangular_is_dominated order (Rectangular obj1) (Rectangular obj2)
      slackness = Ok b /\
    (b = true <->
     forall v1 v2,
       is_vertex (lower obj1) (upper obj1) v1 ->
       is_vertex (lower obj2) (upper obj2) v2 ->
       dominates order (plus_slackness v2 slackness) v1 = true).
Proof.
  intros Hl1 Hl2 Hle1 Hle2 Hs.
  pose proof (Forall2_length Hle1) as Hu1.
  pose proof (Forall2_length Hle2) as Hu2.
  unfold Rectangular_is_dominated.
  assert ((if (size slackness =? 1)%nat then Ok tt
           else l1 <- attr_lower (Rectangular obj1) ;;
                assert (size slackness =? length l1)%nat) = Ok tt) as ->.
  { destruct (size slackness =? 1)%nat eqn:E; [reflexivity|]. simpl.
    destruct slackness as [s|sv]; simpl in *; [discriminate|].
    rewrite Hs, Hl1, Nat.eqb_refl. reflexivity. }
  cbn [bind attr_lower attr_upper].
  set (verts1 := hyperrectangle_get_vertices (lower obj1) (upper obj1)).
  set (verts2 := hyperrectangle_get_vertices (lower obj2) (upper obj2)).
  set (test := fun v1 v2 => dominates order (plus_slackness v2 slackness) v1).
  assert (forall vert1,
    for_each verts2 (fun vert2 =>
      shifted <- broadcast_sv Qplus vert2 slackness ;;
      if negb (dominates order shifted vert1) then Ok (Some false)
      else Ok None) =
    Ok (if forallb (test vert1) verts2 then None else Some false)) as Hinner.
  { intros vert1. rewrite <- for_each_check. apply for_each_ext_in.
    intros vert2 Hin. apply in_vertices_iff, is_vertex_length in Hin.
    rewrite (broadcast_sv_plus D) by (try assumption; lia). simpl.
    unfold test. now destruct (dominates order _ vert1). }
  rewrite (for_each_ext_in verts1 _
             (fun v1 => Ok (if forallb (test v1) verts2 then None
                            else Some false)))
    by (intros; apply Hinner).
  rewrite (for_each_check verts1 (fun v1 => forallb (test v1) verts2)).
  cbn [bind].
  exists (forallb (fun v1 => forallb (test v1) verts2) verts1). split.
  - now destruct (forallb _ verts1).
  - rewrite forallb_forall. split.
    + intros H v1 v2 H1 H2. apply in_vertices_iff in H1, H2.
      specialize (H v1 H1). rewrite forallb_forall in H. now apply H.
    + intros H v1 H1. apply forallb_forall. intros v2 H2.
      apply H; now apply in_vertices_iff.
Qed.

Lemma C4_is_dominated_witness :
  exists b,
    Rectangular_is_dominated (cone_order [[1; 0]; [0; 1]])
      (Rectangular {| lower := [0; 0]; upper := [1; 1];
                      intersect_iteratively := false |})
      (Rectangular {| lower := [2; 2]; upper := [3; 3];
                      intersect_iteratively := false |})
      (Scalar 0) = Ok b /\
    (b = true <->
     forall v1 v2,
       is_vertex [0; 0] [1; 1] v1 -> is_vertex [2; 2] [3; 3] v2 ->
       dominates (cone_order [[1; 0]; [0; 1]])
         (plus_slackness v2 (Scalar 0)) v1 = true).
Proof.
  apply (C4_is_dominated_iff_all_vertex_pairs (cone_order [[1; 0]; [0; 1]])
           {| lower := [0; 0]; upper := [1; 1]; intersect_iteratively := false |}
           {| lower := [2; 2]; upper := [3; 3]; intersect_iteratively := false |}
           (Scalar 0) 2);
    simpl; try reflexivity; try exact I; repeat constructor; lra.
Defined.

Example is_dominated_far_box :
  Rectangular_is_dominated (cone_order [[1; 0]; [0; 1]])
    (Rectangular {| lower := [0; 0]; upper := [1; 1];
                    intersect_iteratively := false |})
    (Rectangular {| lower := [2; 2]; upper := [3; 3];
                    intersect_iteratively := false |})
    (Scalar 0) = Ok true.
Proof. reflexivity. Qed.

Example is_dominated_overlapping_box :
  Rectangular_is_dominated (cone_order [[1; 0]; [0; 1]])
    (Rectangular {| lower := [0; 0]; upper := [1; 1];
                    intersect_iteratively := false |})
    (Rectangular {| lower := [1 # 2; 1 # 2]; upper := [3; 3];
                    intersect_iteratively := false |})
    (Vector [0; 0]) = Ok false.
Proof. reflexivity. Qed.

(** ** get_smallmij *)

Lemma Qmin_cases (x y : Q) : Qmin x y = x \/ Qmin x y = y.
Proof.
  unfold Qmin, GenericMinMax.gmin. destruct (x ?= y); auto.
Qed.

Lemma fold_Qmin_spec (r : vec) :
  forall x, In (fold_left Qmin r x) (x :: r) /\
            forall y, In y (x :: r) -> fold_left Qmin r x <= y.
Proof.
  induction r as [|z r IH]; intros x; simpl.
  - split; [now left|]. intros y [<-|[]]. apply Qle_refl.
  - destruct (IH (Qmin x z)) as [Hin Hle]. split.
    + destruct Hin as [Hin|Hin]; [|now right; right].
      destruct (Qmin_cases x z) as [E|E]; [left | right; left]; congruence.
    + intros y Hy.
      assert (fold_left Qmin r (Qmin x z) <= Qmin x z) as Hm
        by (apply Hle; now left).
      destruct Hy as [<-|[<-|Hy]].
      * eapply Qle_trans; [exact Hm | apply Q.le_min_l].
      * eapply Qle_trans; [exact Hm | apply Q.le_min_r].
      * apply Hle. now right.
Qed.

Lemma array_min_spec (l : vec) (m : Q) :
  array_min l = Ok m -> In m l /\ forall y, In y l -> m <= y.
Proof.
  destruct l as [|x r]; simpl; [discriminate|].
  intros H. injection H as <-. apply fold_Qmin_spec.
Qed.

Lemma array_min_nonempty (l : vec) :
  l <> [] -> exists m, array_min l = Ok m.
Proof.
  destruct l as [|x r]; [congruence|]. intros _. simpl. eauto.
Qed.

Lemma in_map2 {A B C : Type} (f : A -> B -> C) (a : list A) (b : list B)
    (z : C) :
  In z (map2 f a b) -> exists x y, In x a /\ In y b /\ z = f x y.
Proof.
  unfold map2. intros H. apply in_map_iff in H.
  destruct H as [[x y] [<- Hin]]. exists x, y. simpl.
  split; [eapply in_combine_l|split; [eapply in_combine_r|reflexivity]];
    eassumption.
Qed.

(** Every entry of [prod / alpha_vec] is an entry of [prod] over an entry
    of [alpha_vec], whatever the shape. *)
Lemma divide_by_alpha_entries (prod quot : vec) (alpha_vec : alpha_array) :
  divide_by_alpha prod alpha_vec = Ok quot ->
  forall z, In z quot ->
    exists p a, In p prod /\ In a (alpha_entries alpha_vec) /\ z = p / a.
Proof.
  destruct alpha_vec as [a|a]; simpl.
  - unfold broadcast. destruct (length prod =? length a)%nat.
    + intros H z Hz. injection H as <-. now apply in_map2.
    + destruct prod as [|p [|p' prod]]; destruct a as [|x [|x' a]];
        try discriminate; intros H z Hz; injection H as <-;
        try (now destruct Hz).
      * destruct Hz as [<-|[]]. exists p, x. simpl. auto.
      * change (In z (map (Qdiv p) (x :: x' :: a))) in Hz.
        apply in_map_iff in Hz. destruct Hz as [y [<- Hy]].
        exists p, y. split; [now left|]. split; [assumption | reflexivity].
      * change (In z (map (fun x0 => x0 / x) (p :: p' :: prod))) in Hz.
        apply in_map_iff in Hz. destruct Hz as [y [<- Hy]].
        exists y, x. split; [assumption|]. split; [now left | reflexivity].
  - intros H z Hz. injection H as <-. apply in_flat_map in Hz.
    destruct Hz as [al [Hal Hz]]. apply in_map_iff in Hz.
    destruct Hz as [p0 [<- Hp]]. eauto.
Qed.

Lemma divide_by_alpha_total (prod : vec) (alpha_vec : alpha_array) :
  prod <> [] -> length (alpha_entries alpha_vec) = length prod ->
  exists quot, divide_by_alpha prod alpha_vec = Ok quot /\ quot <> [].
Proof.
  intros Hp Hl. destruct alpha_vec as [a|a]; simpl in *.
  - rewrite broadcast_same_length by congruence. eexists. split; [reflexivity|].
    destruct prod, a; try (simpl in *; congruence).
    unfold map2. simpl. discriminate.
  - eexists. split; [reflexivity|].
    destruct prod, a; try (simpl in *; congruence).
Qed.

Lemma matmul_rows (W : matrix) (v : vec) :
  Forall (fun row => length row = length v) W ->
  matmul W v = Ok (map (fun row => dot row v) W).
Proof.
  intros H. unfold matmul.
  assert (forallb (fun row => (length row =? length v)%nat) W = true) as ->;
    [|reflexivity].
  apply forallb_forall. intros row Hin. rewrite Forall_forall in H.
  apply Nat.eqb_eq. now apply H.
Qed.

(** On inputs of the documented shapes [get_smallmij] returns a number
    that is not negative. *)
Lemma get_smallmij_nonneg (vi vj : vec) (W : matrix) (alpha_vec : alpha_array)
    (D : nat) :
  gap_input [vi; vj] W alpha_vec D ->
  exists m, get_smallmij vi vj W alpha_vec = Ok m /\ 0 <= m.
Proof.
  intros (HW & Hrows & Hmu & Hal & Hpos).
  pose proof (Forall_inv Hmu) as Hvi.
  pose proof (Forall_inv (Forall_inv_tail Hmu)) as Hvj. simpl in Hvi, Hvj.
  unfold get_smallmij.
  rewrite broadcast_same_length by congruence. cbn [bind].
  rewrite matmul_rows
    by (rewrite length_map2, Hvi, Hvj, Nat.min_id; exact Hrows).
  cbn [bind].
  set (prod := map (fun p => if Qlt_bool p 0 then 0 else p) _).
  destruct (divide_by_alpha_total prod alpha_vec) as [quot [Hq Hne]].
  { subst prod. destruct W; simpl; congruence. }
  { subst prod. now rewrite !length_map. }
  rewrite Hq. cbn [bind].
  destruct (array_min_nonempty quot Hne) as [m Hm]. exists m.
  split; [assumption|].
  apply array_min_spec in Hm. destruct Hm as [Hin _].
  destruct (divide_by_alpha_entries _ _ _ Hq m Hin) as [p [a [Hp [Ha ->]]]].
  rewrite Forall_forall in Hpos. specialize (Hpos a Ha).
  assert (0 <= p) as Hp0.
  { subst prod. apply in_map_iff in Hp. destruct Hp as [p0 [<- _]].
    unfold Qlt_bool. destruct (Qle_bool 0 p0) eqn:E; simpl.
    - now apply Qle_bool_iff. - apply Qle_refl. }
  apply Qle_shift_div_l; [assumption|]. lra.
Qed.

Lemma dot_zero (row d : vec) :
  Forall (fun x => x == 0) d -> dot row d == 0.
Proof.
  intros H. revert row. induction H as [|x d Hx Hd IH]; intros [|r row];
    try reflexivity.
  unfold dot, map2 in *. simpl. rewrite IH, Hx. ring.
Qed.

Lemma minus_self_zero (v : vec) : Forall (fun x => x == 0) (map2 Qminus v v).
Proof.
  induction v as [|x v IH]; [constructor|].
  unfold map2 in *. simpl. constructor; [ring | exact IH].
Qed.

(** A point has margin 0 over itself. *)
Lemma get_smallmij_self (v : vec) (W : matrix) (alpha_vec : alpha_array)
    (m : Q) :
  get_smallmij v v W alpha_vec = Ok m -> m == 0.
Proof.
  unfold get_smallmij.
  rewrite broadcast_same_length by reflexivity. cbn [bind].
  unfold matmul.
  match goal with |- context [if ?c then _ else _] => destruct c end;
    [|discriminate].
  cbn [bind].
  destruct (divide_by_alpha _ alpha_vec) as [quot|e] eqn:Hq; [|discriminate].
  cbn [bind]. intros Hm. apply array_min_spec in Hm. destruct Hm as [Hin _].
  destruct (divide_by_alpha_entries _ _ _ Hq m Hin) as [p [a [Hp [_ ->]]]].
  apply in_map_iff in Hp. destruct Hp as [p0 [<- Hp0]].
  apply in_map_iff in Hp0. destruct Hp0 as [row [<- _]].
  pose proof (dot_zero row _ (minus_self_zero v)) as Hz.
  destruct (Qlt_bool _ 0); [|rewrite Hz]; unfold Qdiv; ring.
Qed.

(** ** get_delta *)

Lemma py_max_l (a b : Q) : a <= py_max a b.
Proof.
  unfold py_max, Qlt_bool. destruct (Qle_bool b a) eqn:E; simpl.
  - apply Qle_refl.
  - apply Qlt_le_weak, Qnot_le_lt. intros H. apply Qle_bool_iff in H.
    congruence.
Qed.

Lemma py_max_r (a b : Q) : b <= py_max a b.
Proof.
  unfold py_max, Qlt_bool. destruct (Qle_bool b a) eqn:E; simpl.
  - now apply Qle_bool_iff.
  - apply Qle_refl.
Qed.

Lemma py_max_cases (a b : Q) : py_max a b = a \/ py_max a b = b.
Proof. unfold py_max. destruct (Qlt_bool a b); auto. Qed.

Lemma fold_py_max_spec (l : vec) :
  forall x,
    x <= fold_left py_max l x /\
    (forall y, In y l -> y <= fold_left py_max l x) /\
    (fold_left py_max l x = x \/ In (fold_left py_max l x) l).
Proof.
  induction l as [|z l IH]; intros x; simpl.
  - split; [apply Qle_refl|]. split; [intros y []|now left].
  - destruct (IH (py_max x z)) as (H1 & H2 & H3). split; [|split].
    + eapply Qle_trans; [apply (py_max_l x z) | exact H1].
    + intros y [<-|Hy]; [|now apply H2].
      eapply Qle_trans; [apply (py_max_r x z) | exact H1].
    + destruct H3 as [H3|H3]; [|now right; right].
      destruct (py_max_cases x z) as [E|E]; [left | right; left]; congruence.
Qed.

Lemma length_set_nth (i : nat) (x : Q) (l : vec) :
  length (set_nth i x l) = length l.
Proof.
  revert i. induction l as [|h t IH]; intros [|i]; simpl; auto.
Qed.

Lemma nth_set_nth_eq (i : nat) (x : Q) (l : vec) :
  (i < length l)%nat -> nth i (set_nth i x l) 0 = x.
Proof.
  revert i. induction l as [|h t IH]; intros [|i] H; simpl in *; try lia; auto.
  apply IH. lia.
Qed.

Lemma nth_set_nth_neq (i k : nat) (x : Q) (l : vec) :
  k <> i -> nth k (set_nth i x l) 0 = nth k l 0.
Proof.
  revert i k. induction l as [|h t IH]; intros [|i] [|k] H; simpl; auto;
    congruence.
Qed.

Lemma set_nth_twice (i : nat) (x y : Q) (l : vec) :
  set_nth i y (set_nth i x l) = set_nth i y l.
Proof.
  revert i. induction l as [|h t IH]; intros [|i]; simpl; auto.
  now rewrite IH.
Qed.

Section GetDelta.

Variables (mu W : matrix) (alpha_vec : alpha_array).

(** The margin m(i,j) as a total function, for the statement of the
    loop invariants. *)
Let mval (i j : nat) : Q :=
  match get_smallmij (nth i mu []) (nth j mu []) W alpha_vec with
  | Ok m => m
  | Raise _ => 0
  end.

Hypothesis smallmij_returns :
  forall i j, (i < length mu)%nat -> (j < length mu)%nat ->
    get_smallmij (nth i mu []) (nth j mu []) W alpha_vec = Ok (mval i j).

Let inner (i : nat) (delta_values : vec) (j : nat) : result vec :=
  mij <- get_smallmij (nth i mu []) (nth j mu []) W alpha_vec ;;
  Ok (set_nth i (py_max (nth i delta_values 0) mij) delta_values).

(** The inner loop folds [max] over the row of margins into entry [i]. *)
Lemma inner_loop (i : nat) (js : list nat) :
  (i < length mu)%nat -> Forall (fun j => (j < length mu)%nat) js ->
  forall delta, (i < length delta)%nat ->
    for_state (inner i) js delta =
    Ok (set_nth i (fold_left py_max (map (mval i) js) (nth i delta 0)) delta).
Proof.
  intros Hi Hjs. induction Hjs as [|j js Hj Hjs IH]; intros delta Hd; simpl.
  - f_equal. clear -Hd. revert i Hd.
    induction delta as [|h t IHt]; intros [|i] Hd; simpl in *; try lia; auto.
    f_equal. apply IHt. lia.
  - unfold inner at 1. rewrite (smallmij_returns i j Hi Hj). cbn [bind].
    rewrite IH by (rewrite length_set_nth; exact Hd).
    rewrite nth_set_nth_eq by exact Hd. now rewrite set_nth_twice.
Qed.

(** The outer loop touches entry [i] in iteration [i] only. *)
Lemma outer_loop (idx : list nat) :
  NoDup idx -> Forall (fun i => (i < length mu)%nat) idx ->
  forall delta, length delta = length mu ->
    exists delta',
      for_state (fun d i => for_state (inner i) (seq 0 (length mu)) d)
        idx delta = Ok delta' /\
      length delta' = length mu /\
      forall k,
        (In k idx ->
         nth k delta' 0 =
         fold_left py_max (map (mval k) (seq 0 (length mu))) (nth k delta 0))
        /\ (~ In k idx -> nth k delta' 0 = nth k delta 0).
Proof.
  intros Hnd. induction Hnd as [|i idx Hni Hnd IH]; intros His delta Hd; simpl.
  - exists delta. split; [reflexivity|]. split; [assumption|].
    intros k. split; [intros []|reflexivity].
  - pose proof (Forall_inv His) as Hi. simpl in Hi.
    rewrite inner_loop; try lia.
    2:{ apply Forall_forall. intros j Hj. apply in_seq in Hj. lia. }
    cbn [bind].
    set (X := fold_left py_max (map (mval i) (seq 0 (length mu)))
                (nth i delta 0)).
    destruct (IH (Forall_inv_tail His) (set_nth i X delta))
      as (delta' & Hrun & Hlen & Hk).
    { now rewrite length_set_nth. }
    exists delta'. split; [assumption|]. split; [assumption|].
    intros k. destruct (Hk k) as [Hin Hout]. split.
    + intros [<-|Hkin].
      * rewrite Hout by assumption. apply nth_set_nth_eq. lia.
      * rewrite Hin by assumption. rewrite nth_set_nth_neq; [reflexivity|].
        intros ->. contradiction.
    + intros Hnot. simpl in Hnot. rewrite Hout by tauto.
      apply nth_set_nth_neq. intros ->. tauto.
Qed.

End GetDelta.

Lemma gap_input_pair (mu W : matrix) (alpha_vec : alpha_array) (D : nat)
    (i j : nat) :
  gap_input mu W alpha_vec D ->
  (i < length mu)%nat -> (j < length mu)%nat ->
  gap_input [nth i mu []; nth j mu []] W alpha_vec D.
Proof.
  intros (HW & Hrows & Hmu & Hal & Hpos) Hi Hj.
  repeat split; try assumption.
  rewrite Forall_forall in Hmu.
  repeat constructor; apply Hmu; now apply nth_In.
Qed.

(** C3: on points of shape (N, D), a cone matrix and a strictly positive
    alpha vector, [get_delta] returns a column of N entries; entry [i] is
    exactly the maximum over all [j] in 0..N-1 ([j = i] included) of
    [get_smallmij(mu[i], mu[j], W, alpha_vec)]: it bounds every such
    margin from above, it is attained by one of them, and it is not
    negative. *)
Theorem C3_get_delta_is_max_over_pairs (mu W : matrix)
    (alpha_vec : alpha_array) (D : nat) :
  gap_input mu W alpha_vec D ->
  exists delta,
    get_delta mu W alpha_vec = Ok delta /\
    length delta = length mu /\
    forall i, (i < length mu)%nat ->
      exists d,
        nth i delta [] = [d] /\
        0 <= d /\
        (forall j, (j < length mu)%nat ->
           exists m,
             get_smallmij (nth i mu []) (nth j mu []) W alpha_vec = Ok m /\
             m <= d) /\
        (exists j m,
           (j < length mu)%nat /\
           get_smallmij (nth i mu []) (nth j mu []) W alpha_vec = Ok m /\
           d == m).
Proof.
  intros Hin.
  set (mval := fun i j =>
         match get_smallmij (nth i mu []) (nth j mu []) W alpha_vec with
         | Ok m => m
         | Raise _ => 0
         end).
  assert (forall i j, (i < length mu)%nat -> (j < length mu)%nat ->
            get_smallmij (nth i mu []) (nth j mu []) W alpha_vec
            = Ok (mval i j)) as Hret.
  { intros i j Hi Hj.
    destruct (get_smallmij_nonneg _ _ _ _ _ (gap_input_pair _ _ _ _ i j Hin Hi Hj))
      as [m [Hm _]].
    unfold mval. now rewrite Hm. }
  destruct (outer_loop mu W alpha_vec Hret (seq 0 (length mu)))
    with (delta := repeat 0 (length mu))
    as (delta' & Hrun & Hlen & Hk).
  { apply seq_NoDup. }
  { apply Forall_forall. intros i Hi. apply in_seq in Hi. lia. }
  { apply repeat_length. }
  exists (map (fun d => [d]) delta'). split; [|split].
  - unfold get_delta. cbv zeta.
    exact (f_equal (fun r => bind r (fun dv => Ok (map (fun d => [d]) dv)))
             Hrun).
  - now rewrite length_map.
  - intros i Hi. exists (nth i delta' 0). split.
    { rewrite (nth_indep _ [] [0]) by (rewrite length_map; lia).
      apply (map_nth (fun d => [d])). }
    destruct (Hk i) as [Hval _].
    rewrite Hval by (apply in_seq; lia). rewrite nth_repeat.
    match goal with
    | |- context [fold_left py_max ?l 0] =>
        change l with (map (mval i) (seq 0 (length mu)))
    end.
    destruct (fold_py_max_spec (map (mval i) (seq 0 (length mu))) 0)
      as (H0 & Hub & Hatt).
    split; [exact H0|]. split.
    + intros j Hj. exists (mval i j). split; [now apply Hret|].
      apply Hub. apply in_map. apply in_seq. lia.
    + destruct Hatt as [Hz|Hmem].
      * exists i, (mval i i). split; [assumption|].
        split; [now apply Hret|]. rewrite Hz. symmetry.
        eapply get_smallmij_self. now apply Hret.
      * apply in_map_iff in Hmem. destruct Hmem as [j [Hj Hjin]].
        apply in_seq in Hjin. exists j, (mval i j).
        split; [lia|]. split; [apply Hret; lia|]. rewrite Hj. reflexivity.
Qed.

Lemma test_means_gap_input :
  gap_input [[1; 0]; [11 # 10; 2 # 10]; [1 # 2; 8 # 10]]
            [[1; 0]; [0; 1]] (Column [1; 1]) 2.
Proof.
  unfold gap_input. simpl.
  split; [discriminate|]. split; [repeat constructor|].
  split; [repeat constructor|]. split; [reflexivity|].
  repeat constructor.
Qed.

Lemma C3_get_delta_witness :
  exists delta,
    get_delta [[1; 0]; [11 # 10; 2 # 10]; [1 # 2; 8 # 10]]
              [[1; 0]; [0; 1]] (Column [1; 1]) = Ok delta /\
    length delta = 3%nat.
Proof.
  destruct (C3_get_delta_is_max_over_pairs
              [[1; 0]; [11 # 10; 2 # 10]; [1 # 2; 8 # 10]]
              [[1; 0]; [0; 1]] (Column [1; 1]) 2 test_means_gap_input)
    as (delta & Hrun & Hlen & _).
  exists delta. split; assumption.
Defined.

(** ** get_smallmij against the formula of the specification *)

Lemma clip_is_Qmax (p : Q) : (if Qlt_bool p 0 then 0 else p) == Qmax 0 p.
Proof.
  unfold Qlt_bool. destruct (Qle_bool 0 p) eqn:E; simpl.
  - apply Qle_bool_iff in E. symmetry. now apply Q.max_r.
  - symmetry. apply Q.max_l. apply Qlt_le_weak, Qnot_le_lt.
    intros H. apply Qle_bool_iff in H. congruence.
Qed.

Lemma Forall2_Qeq_in (l1 l2 : vec) :
  Forall2 Qeq l1 l2 ->
  (forall x, In x l1 -> exists y, In y l2 /\ x == y) /\
  (forall y, In y l2 -> exists x, In x l1 /\ x == y).
Proof.
  induction 1 as [|x y l1 l2 Hxy H [IH1 IH2]]; simpl.
  - split; intros ? [].
  - split.
    + intros x' [<-|Hx]; [eauto|]. destruct (IH1 x' Hx) as [y' [? ?]]. eauto.
    + intros y' [<-|Hy]; [eauto|]. destruct (IH2 y' Hy) as [x' [? ?]]. eauto.
Qed.

Lemma array_min_Qeq (l1 l2 : vec) (m1 m2 : Q) :
  Forall2 Qeq l1 l2 -> array_min l1 = Ok m1 -> array_min l2 = Ok m2 ->
  m1 == m2.
Proof.
  intros H H1 H2. apply array_min_spec in H1, H2.
  destruct H1 as [Hin1 Hlb1], H2 as [Hin2 Hlb2].
  destruct (Forall2_Qeq_in _ _ H) as [Hl Hr].
  destruct (Hl m1 Hin1) as [y [Hy Hmy]]. destruct (Hr m2 Hin2) as [x [Hx Hxm]].
  apply Qle_antisym.
  - rewrite <- Hxm. now apply Hlb1.
  - rewrite Hmy. now apply Hlb2.
Qed.

(** With a flat alpha vector of shape (n,) the division is elementwise
    and [get_smallmij] is the formula of the specification. *)
Lemma get_smallmij_flat_alpha (vi vj : vec) (W : matrix) (a : vec) (D : nat)
    (m m' : Q) :
  gap_input [vi; vj] W (Flat a) D ->
  get_smallmij vi vj W (Flat a) = Ok m ->
  array_min (smallmij_formula vi vj W a) = Ok m' ->
  m == m'.
Proof.
  intros (HW & Hrows & Hmu & Hal & Hpos).
  pose proof (Forall_inv Hmu) as Hvi.
  pose proof (Forall_inv (Forall_inv_tail Hmu)) as Hvj. simpl in Hvi, Hvj, Hal.
  unfold get_smallmij.
  rewrite broadcast_same_length by congruence. cbn [bind].
  rewrite matmul_rows
    by (rewrite length_map2, Hvi, Hvj, Nat.min_id; exact Hrows).
  cbn [bind divide_by_alpha].
  rewrite broadcast_same_length by (now rewrite !length_map).
  cbn [bind]. apply array_min_Qeq.
  unfold smallmij_formula. clear -Hal. revert a Hal.
  induction W as [|row W IH]; intros [|al a] Hal; simpl in Hal;
    try discriminate; unfold map2 in *; simpl; constructor.
  - simpl. now rewrite clip_is_Qmax.
  - apply IH. lia.
Qed.

(** With the documented column shape (n,1) the division broadcasts to
    every pair of a row of [prod] and an entry of [alpha_vec]:
    [get_smallmij] is a lower bound of the clipped product of any row
    [k] over the alpha of any row [l]. *)
Lemma get_smallmij_column_alpha (vi vj : vec) (W : matrix) (a : vec) (D : nat)
    (m : Q) :
  gap_input [vi; vj] W (Column a) D ->
  get_smallmij vi vj W (Column a) = Ok m ->
  forall row al, In row W -> In al a ->
    m <= Qmax 0 (dot row (map2 Qminus vj vi)) / al.
Proof.
  intros (HW & Hrows & Hmu & Hal & Hpos).
  pose proof (Forall_inv Hmu) as Hvi.
  pose proof (Forall_inv (Forall_inv_tail Hmu)) as Hvj. simpl in Hvi, Hvj, Hal.
  unfold get_smallmij.
  rewrite broadcast_same_length by congruence. cbn [bind].
  rewrite matmul_rows
    by (rewrite length_map2, Hvi, Hvj, Nat.min_id; exact Hrows).
  cbn [bind divide_by_alpha]. intros Hm row al Hrow Hin.
  apply array_min_spec in Hm. destruct Hm as [_ Hlb].
  rewrite <- clip_is_Qmax. apply Hlb.
  apply in_flat_map. exists al. split; [assumption|].
  apply in_map_iff. eexists. split; [reflexivity|].
  apply in_map_iff. eexists. split; [reflexivity|].
  apply in_map_iff. exists row. split; [reflexivity | assumption].
Qed.

(** C6 fails on the code: with the column alpha vector that
    [get_alpha_vec] returns, rows of different alpha are mixed.  For
    W = [[1,0],[0,2]], alpha_vec = [[1],[2]], vi = (0,0), vj = (1,2) the
    formula gives min(1/1, 4/2) = 1 and [get_smallmij] returns 1/2. *)
Theorem C6_get_smallmij_column_alpha_mixes_rows :
  gap_input [[0; 0]; [1; 2]] [[1; 0]; [0; 2]] (Column [1; 2]) 2 /\
  get_smallmij [0; 0] [1; 2] [[1; 0]; [0; 2]] (Column [1; 2]) = Ok (1 # 2) /\
  array_min (smallmij_formula [0; 0] [1; 2] [[1; 0]; [0; 2]] [1; 2]) = Ok 1 /\
  ~ (1 # 2 == 1).
Proof.
  split.
  { unfold gap_input. simpl. split; [discriminate|].
    split; [repeat constructor|]. split; [repeat constructor|].
    split; [reflexivity|]. repeat constructor. }
  split; [reflexivity|]. split; [reflexivity|]. intros H. discriminate H.
Qed.

(** ** RectangularConfidenceRegion: construction, update, intersect *)

Lemma shape_square (D : nat) (covariance : matrix) :
  length covariance = D -> Forall (fun row => length row = D) covariance ->
  shape covariance = (D, D).
Proof.
  intros Hl Hr. unfold shape. rewrite Hl. f_equal.
  destruct covariance as [|row rest]; [assumption|]. exact (Forall_inv Hr).
Qed.

Lemma length_times_scale (D : nat) (std : vec) (scale : scalar_or_vector) :
  length std = D -> valid_slackness D scale ->
  length (times_scale std scale) = D /\
  broadcast_sv Qmult std scale = Ok (times_scale std scale).
Proof.
  intros Hs Hv. destruct scale as [s|sv]; simpl in *.
  - split; [now rewrite length_map | reflexivity].
  - split; [rewrite length_map2; lia|].
    apply broadcast_same_length. congruence.
Qed.

Section Update.
Variable sqrt : Q -> Q.

Lemma update_box_lengths (D : nat) (mean : vec) (covariance : matrix)
    (scale : scalar_or_vector) :
  update_input D mean covariance scale ->
  length (update_L sqrt mean covariance scale) = D /\
  length (update_U sqrt mean covariance scale) = D.
Proof.
  intros (Hm & Hc & Hr & Hs). unfold update_L, update_U.
  destruct (length_times_scale D (map sqrt (diagonal_of covariance)) scale)
    as [Hl _]; try assumption.
  { unfold diagonal_of. now rewrite !length_map, length_seq. }
  rewrite !length_map2, Hl, Hm, Nat.min_id. auto.
Qed.

Lemma Rectangular_update_returns (D : nat) (mean : vec) (covariance : matrix)
    (scale : scalar_or_vector) (self : RectangularConfidenceRegion) :
  D <> 1%nat -> update_input D mean covariance scale ->
  (intersect_iteratively self = true ->
   length (lower self) = D /\ length (upper self) = D) ->
  let L := update_L sqrt mean covariance scale in
  let U := update_U sqrt mean covariance scale in
  exists overlap,
    (intersect_iteratively self = true ->
     hyperrectangle_check_intersection (lower self) (upper self) L U
       = Ok overlap) /\
    Rectangular_update sqrt mean covariance scale self =
    (Ok tt,
     {| lower := if intersect_iteratively self && overlap
                 then map2 Qmax (lower self) L else L;
        upper := if intersect_iteratively self && overlap
                 then map2 Qmin (upper self) U else U;
        intersect_iteratively := intersect_iteratively self |}).
Proof.
  intros HD Hin Hlen L U.
  destruct (update_box_lengths D mean covariance scale Hin) as [HL HU].
  fold L in HL. fold U in HU.
  destruct Hin as (Hm & Hc & Hr & Hs).
  assert (exists overlap,
            intersect_iteratively self = true ->
            hyperrectangle_check_intersection (lower self) (upper self) L U
            = Ok overlap) as [overlap Hov].
  { destruct (intersect_iteratively self); [|exists false; discriminate].
    destruct (Hlen eq_refl) as [Hlo Hup].
    destruct (check_intersection_strict (lower self) (upper self) L U)
      as [overlap [Hov _]]; try congruence.
    exists overlap. intros _. exact Hov. }
  exists overlap. split; [assumption|].
  destruct (length_times_scale D (map sqrt (diagonal_of covariance)) scale)
    as [Hl Hbs]; try assumption.
  { unfold diagonal_of. now rewrite !length_map, length_seq. }
  unfold Rectangular_update, bind_m, lift_m, self_m.
  rewrite (shape_square D) by assumption. cbn [fst snd].
  rewrite Nat.eqb_refl. cbn [negb].
  unfold diag_squeeze. rewrite (shape_square D) by assumption. cbn [fst].
  destruct (Nat.eqb_spec D 1) as [|_]; [contradiction|].
  replace (map (fun i => nth i (nth i covariance []) 0) (seq 0 D))
    with (diagonal_of covariance) by (unfold diagonal_of; now rewrite Hc).
  rewrite Hbs.
  rewrite !broadcast_same_length by congruence.
  fold (update_L sqrt mean covariance scale). fold L.
  fold (update_U sqrt mean covariance scale). fold U.
  destruct (intersect_iteratively self) eqn:Hii; cbn [andb].
  - destruct (Hlen eq_refl) as [Hlo Hup].
    unfold intersect, bind_m, lift_m, self_m. rewrite (Hov eq_refl).
    destruct overlap.
    + rewrite broadcast_same_length by congruence.
      unfold set_lower, set_upper. cbn [lower upper intersect_iteratively].
      rewrite broadcast_same_length by congruence. now rewrite Hii.
    + unfold set_lower, set_upper. cbn. now rewrite Hii.
  - unfold set_lower, set_upper. cbn. now rewrite Hii.
Qed.
End Update.

(** In every dimension but 1, after [update(mean, covariance, scale)],
    with [L] and [U] the bounds of the new box: when
    [intersect_iteratively] is set and
    [hyperrectangle_check_intersection] reports an overlap of the
    current box with [[L, U]], the new bounds are the coordinatewise
    maximum of the lower bounds and minimum of the upper bounds; when it
    reports none, the bounds become exactly [L] and [U]; when
    [intersect_iteratively] is not set the bounds always become exactly
    [L] and [U]. *)
Theorem update_intersects_or_replaces (sqrt : Q -> Q) (D : nat)
    (mean : vec) (covariance : matrix) (scale : scalar_or_vector)
    (self : RectangularConfidenceRegion) :
  D <> 1%nat -> update_input D mean covariance scale ->
  (intersect_iteratively self = true ->
   length (lower self) = D /\ length (upper self) = D) ->
  let L := update_L sqrt mean covariance scale in
  let U := update_U sqrt mean covariance scale in
  exists self',
    Rectangular_update sqrt mean covariance scale self = (Ok tt, self') /\
    intersect_iteratively self' = intersect_iteratively self /\
    (intersect_iteratively self = true ->
     hyperrectangle_check_intersection (lower self) (upper self) L U
       = Ok true ->
     lower self' = map2 Qmax (lower self) L /\
     upper self' = map2 Qmin (upper self) U) /\
    (intersect_iteratively self = true ->
     hyperrectangle_check_intersection (lower self) (upper self) L U
       = Ok false ->
     lower self' = L /\ upper self' = U) /\
    (intersect_iteratively self = false -> lower self' = L /\ upper self' = U).
Proof.
  intros HD Hin Hlen L U.
  destruct (Rectangular_update_returns sqrt D mean covariance scale self
              HD Hin Hlen) as [overlap [Hov Hrun]].
  fold L in Hov, Hrun. fold U in Hov, Hrun.
  eexists. split; [exact Hrun|]. cbn [lower upper intersect_iteratively].
  split; [reflexivity|]. split; [|split].
  - intros Hii Hc. rewrite Hc in Hov. specialize (Hov Hii).
    injection Hov as <-. now rewrite Hii.
  - intros Hii Hc. rewrite Hc in Hov. specialize (Hov Hii).
    injection Hov as <-. now rewrite Hii.
  - intros Hii. now rewrite Hii.
Qed.

Lemma sample_update_input :
  update_input 2 [1; 3] [[4; 0]; [0; 9]] (Scalar 1).
Proof.
  unfold update_input. simpl. repeat split; repeat constructor.
Qed.

Lemma update_intersects_or_replaces_witness :
  let self := {| lower := [0; 0]; upper := [2; 2];
                 intersect_iteratively := true |} in
  let L := update_L sqrt_floor [1; 3] [[4; 0]; [0; 9]] (Scalar 1) in
  let U := update_U sqrt_floor [1; 3] [[4; 0]; [0; 9]] (Scalar 1) in
  exists self',
    Rectangular_update sqrt_floor [1; 3] [[4; 0]; [0; 9]] (Scalar 1) self
      = (Ok tt, self') /\
    intersect_iteratively self' = intersect_iteratively self /\
    (intersect_iteratively self = true ->
     hyperrectangle_check_intersection (lower self) (upper self) L U
       = Ok true ->
     lower self' = map2 Qmax (lower self) L /\
     upper self' = map2 Qmin (upper self) U) /\
    (intersect_iteratively self = true ->
     hyperrectangle_check_intersection (lower self) (upper self) L U
       = Ok false ->
     lower self' = L /\ upper self' = U) /\
    (intersect_iteratively self = false -> lower self' = L /\ upper self' = U).
Proof.
  apply (update_intersects_or_replaces sqrt_floor 2 [1; 3]
           [[4; 0]; [0; 9]] (Scalar 1)
           {| lower := [0; 0]; upper := [2; 2];
              intersect_iteratively := true |});
    [discriminate | exact sample_update_input | intros _; split; reflexivity].
Defined.

Example update_overlapping :
  Rectangular_update sqrt_floor [1; 3] [[4; 0]; [0; 9]] (Scalar 1)
    {| lower := [0; 1]; upper := [2; 2]; intersect_iteratively := true |}
  = (Ok tt, {| lower := [0; 1]; upper := [2; 2];
               intersect_iteratively := true |}).
Proof. reflexivity. Qed.

Example update_disjoint :
  Rectangular_update sqrt_floor [1; 3] [[4; 0]; [0; 9]] (Scalar 1)
    {| lower := [7; 7]; upper := [8; 8]; intersect_iteratively := true |}
  = (Ok tt, {| lower := [-1 # 1; 0]; upper := [3; 6];
               intersect_iteratively := true |}).
Proof. reflexivity. Qed.

(** C5 fails on the code in dimension 1.  For a region of one objective,
    [update] is called with a mean of one entry and a covariance of
    shape (1, 1); [covariance.squeeze()] has no dimension left, [np.diag]
    raises [ValueError], and no bound is assigned: the bounds do not
    become [L] and [U], with or without [intersect_iteratively].  At
    mean 1, variance 4 and scale 1 the claim gives the box [[-1, 3]]
    and the region keeps [[0, 2]]. *)
Theorem C5_update_raises_in_one_dimension :
  (forall (sqrt : Q -> Q) (m c : Q) (scale : scalar_or_vector)
          (self : RectangularConfidenceRegion),
     Rectangular_update sqrt [m] [[c]] scale self
     = (Raise ValueError, self)) /\
  (let self := {| lower := [0]; upper := [2];
                  intersect_iteratively := false |} in
   update_input 1 [1] [[4]] (Scalar 1) /\
   Forall2 Qeq (update_L sqrt_floor [1] [[4]] (Scalar 1)) [-1 # 1] /\
   Forall2 Qeq (update_U sqrt_floor [1] [[4]] (Scalar 1)) [3] /\
   Rectangular_update sqrt_floor [1] [[4]] (Scalar 1) self
   = (Raise ValueError, self) /\
   ~ Forall2 Qeq (lower self)
       (update_L sqrt_floor [1] [[4]] (Scalar 1))).
Proof.
  split; [reflexivity|]. cbv zeta.
  split; [unfold update_input; simpl; repeat split; repeat constructor|].
  split; [repeat constructor|]. split; [repeat constructor|].
  split; [reflexivity|].
  intros H. inversion H as [|x y l l' Hhead Htail]; subst.
  vm_compute in Hhead. discriminate Hhead.
Qed.

Lemma sqrt_floor_nonneg (x : Q) : 0 <= x -> 0 <= sqrt_floor x.
Proof.
  intros _. unfold sqrt_floor, Qle. simpl. rewrite Z.mul_1_r.
  apply Z.sqrt_nonneg.
Qed.

Lemma repeat_le (x y : Q) (n : nat) :
  x <= y -> Forall2 Qle (repeat x n) (repeat y n).
Proof. intros H. induction n; simpl; constructor; assumption. Qed.

Lemma box_L_le_U (mean ss : vec) :
  Forall (fun s => 0 <= s) ss ->
  Forall2 Qle (map2 Qminus mean ss) (map2 Qplus mean ss).
Proof.
  intros H. revert mean. induction H as [|s ss Hs Hss IH]; intros [|m mean];
    unfold map2 in *; simpl; constructor.
  - simpl. lra.
  - apply IH.
Qed.

Lemma times_scale_nonneg (std : vec) (scale : scalar_or_vector) :
  Forall (fun s => 0 <= s) std -> scale_nonneg scale ->
  Forall (fun s => 0 <= s) (times_scale std scale).
Proof.
  intros Hstd Hsc. rewrite Forall_forall in *.
  destruct scale as [s|sv]; simpl in *; intros z Hz.
  - apply in_map_iff in Hz. destruct Hz as [x [<- Hx]].
    apply Qmult_le_0_compat; auto.
  - apply in_map2 in Hz. destruct Hz as [x [y [Hx [Hy ->]]]].
    rewrite Forall_forall in Hsc. apply Qmult_le_0_compat; auto.
Qed.

(** The constructor accepts explicit bounds only when they are ordered. *)
Lemma Rectangular_init_invariant (dim : nat) (lo up : option vec)
    (ii : bool) (r : RectangularConfidenceRegion) :
  Rectangular_init dim lo up ii = Ok r -> lower_le_upper r.
Proof.
  unfold Rectangular_init, lower_le_upper.
  destruct lo as [lo|], up as [up|];
    try (intros H; injection H as <-; simpl; apply repeat_le; lra).
  destruct (length lo =? dim)%nat eqn:E1; [|discriminate].
  destruct (length up =? dim)%nat eqn:E2; [|discriminate].
  apply Nat.eqb_eq in E1, E2. cbn [andb assert bind].
  rewrite broadcast_same_length by congruence. cbn [bind].
  destruct (np_all (map2 Qle_bool lo up)) eqn:Hall; [|discriminate].
  cbn [assert bind]. intros H. injection H as <-. simpl.
  apply Forall2_nth_Qle. split; [congruence|]. intros d Hd.
  rewrite np_all_true in Hall.
  specialize (Hall d ltac:(rewrite length_map2; lia)).
  rewrite (nth_map2 _ _ _ _ 0 0) in Hall by lia.
  now apply Qle_bool_iff.
Qed.

Lemma Rectangular_init_rejects (dim : nat) (lo up : vec) (ii : bool) :
  ~ Forall2 Qle lo up ->
  Rectangular_init dim (Some lo) (Some up) ii = Raise AssertionError.
Proof.
  intros Hnot. unfold Rectangular_init.
  destruct (length lo =? dim)%nat eqn:E1; [|reflexivity].
  destruct (length up =? dim)%nat eqn:E2; [|reflexivity].
  apply Nat.eqb_eq in E1, E2. cbn [andb assert bind].
  rewrite broadcast_same_length by congruence. cbn [bind].
  destruct (np_all (map2 Qle_bool lo up)) eqn:Hall; [exfalso|reflexivity].
  apply Hnot. apply Forall2_nth_Qle. split; [congruence|]. intros d Hd.
  rewrite np_all_true in Hall.
  specialize (Hall d ltac:(rewrite length_map2; lia)).
  rewrite (nth_map2 _ _ _ _ 0 0) in Hall by lia.
  now apply Qle_bool_iff.
Qed.

(** [update] keeps the invariant, whichever branch it takes. *)
Lemma Rectangular_update_invariant (sqrt : Q -> Q) (D : nat) (mean : vec)
    (covariance : matrix) (scale : scalar_or_vector)
    (self self' : RectangularConfidenceRegion) (res : result unit) :
  (forall x, 0 <= x -> 0 <= sqrt x) ->
  update_input D mean covariance scale ->
  scale_nonneg scale ->
  Forall (fun v => 0 <= v) (diagonal_of covariance) ->
  length (lower self) = D -> lower_le_upper self ->
  Rectangular_update sqrt mean covariance scale self = (res, self') ->
  lower_le_upper self' /\ (D <> 1%nat -> res = Ok tt).
Proof.
  intros Hsqrt Hin Hsc Hdiag Hlo Hinv Hrun.
  pose proof (Forall2_length Hinv) as Hup.
  destruct (Nat.eq_dec D 1) as [->|HD].
  - split; [|congruence].
    destruct Hin as (Hm & Hc & Hr & Hs).
    unfold Rectangular_update, bind_m, lift_m in Hrun.
    rewrite (shape_square 1) in Hrun by assumption.
    unfold diag_squeeze in Hrun.
    rewrite (shape_square 1) in Hrun by assumption.
    cbn in Hrun. injection Hrun as _ <-. assumption.
  - destruct (Rectangular_update_returns sqrt D mean covariance scale self
                HD Hin ltac:(intros _; split; congruence))
      as [overlap [Hov Hret]].
    rewrite Hret in Hrun. injection Hrun as <- <-.
    split; [|reflexivity].
    set (L := update_L sqrt mean covariance scale) in *.
    set (U := update_U sqrt mean covariance scale) in *.
    destruct (update_box_lengths sqrt D mean covariance scale Hin) as [HL HU].
    fold L in HL. fold U in HU.
    assert (Forall2 Qle L U) as HLU.
    { apply box_L_le_U. apply times_scale_nonneg; [|assumption].
      rewrite Forall_forall in *. intros z Hz.
      apply in_map_iff in Hz. destruct Hz as [x [<- Hx]]. auto. }
    unfold lower_le_upper in *. cbn [lower upper].
    destruct (intersect_iteratively self && overlap) eqn:Hb; [|assumption].
    apply andb_prop in Hb. destruct Hb as [Hii ->].
    specialize (Hov Hii).
    destruct (check_intersection_strict (lower self) (upper self) L U)
      as [b [Hb Hiff]]; try congruence.
    rewrite Hov in Hb. injection Hb as <-.
    destruct (proj1 Hiff eq_refl) as [H1 H2].
    apply Forall2_nth_Qle in Hinv, HLU.
    destruct Hinv as [_ Hinv], HLU as [_ HLU].
    apply Forall2_nth_Qle. rewrite !length_map2. split; [lia|].
    intros d Hd. rewrite Nat.min_glb_lt_iff in Hd. destruct Hd as [Hd1 Hd2].
    rewrite (nth_map2 _ _ _ _ 0 0) by lia.
    rewrite (nth_map2 _ _ _ _ 0 0) by lia.
    specialize (H1 d Hd1). specialize (H2 d ltac:(lia)).
    specialize (Hinv d Hd1). specialize (HLU d Hd2).
    apply Q.max_lub; apply Q.min_glb; lra.
Qed.

(** C9: [lower <= upper] holds after construction, with the default
    bounds and with explicit bounds (out-of-order bounds are rejected),
    and every [update] with [scale >= 0] and a covariance diagonal that
    is not negative preserves it, in each of its branches. *)
Theorem C9_lower_le_upper_invariant (sqrt : Q -> Q) :
  (forall x, 0 <= x -> 0 <= sqrt x) ->
  (forall dim lo up ii r,
     Rectangular_init dim lo up ii = Ok r -> lower_le_upper r) /\
  (forall dim ii, exists r,
     Rectangular_init dim None None ii = Ok r /\ lower_le_upper r) /\
  (forall dim lo up ii,
     ~ Forall2 Qle lo up ->
     Rectangular_init dim (Some lo) (Some up) ii = Raise AssertionError) /\
  (forall D mean covariance scale self res self',
     update_input D mean covariance scale ->
     scale_nonneg scale ->
     Forall (fun v => 0 <= v) (diagonal_of covariance) ->
     length (lower self) = D -> lower_le_upper self ->
     Rectangular_update sqrt mean covariance scale self = (res, self') ->
     lower_le_upper self' /\ (D <> 1%nat -> res = Ok tt)).
Proof.
  intros Hsqrt. split; [|split; [|split]].
  - apply Rectangular_init_invariant.
  - intros dim ii. eexists. split; [reflexivity|].
    apply (Rectangular_init_invariant dim None None ii). reflexivity.
  - apply Rectangular_init_rejects.
  - intros. eapply Rectangular_update_invariant; eassumption.
Qed.

Lemma C9_invariant_witness :
  (forall x, 0 <= x -> 0 <= sqrt_floor x) /\
  lower_le_upper
    (snd (Rectangular_update sqrt_floor [1; 3] [[4; 0]; [0; 9]] (Scalar 1)
            {| lower := [0; 1]; upper := [2; 2];
               intersect_iteratively := true |})).
Proof.
  split; [exact sqrt_floor_nonneg|].
  refine (proj1 (proj2 (proj2 (proj2
    (C9_lower_le_upper_invariant sqrt_floor sqrt_floor_nonneg)))
    2%nat [1; 3] [[4; 0]; [0; 9]] (Scalar 1)
    {| lower := [0; 1]; upper := [2; 2]; intersect_iteratively := true |}
    _ _ sample_update_input _ _ _ _ eq_refl)).
  - simpl. lra.
  - repeat constructor; simpl; lra.
  - reflexivity.
  - repeat constructor; lra.
Defined.

(** ** The solver status and is_covered *)

Section Covering.

Variable inv : matrix -> option matrix.
Variable sqrtm : matrix -> matrix.
Variable solve : solver_name -> problem -> solve_outcome.
Variable well_shaped : problem -> bool.
Variable cons_well_shaped : nat -> ellipsoid_constraint -> bool.

Lemma solve_with_fallback_primary (p : problem) (sol : solution) :
  solve DEFAULT p = Solved sol -> solve_with_fallback solve p = Ok sol.
Proof.
  intros H. unfold solve_with_fallback, prob_solve. now rewrite H.
Qed.

Lemma solve_with_fallback_retry (p : problem) :
  solve DEFAULT p = Fails ->
  solve_with_fallback solve p = prob_solve solve SCS p.
Proof.
  intros H. unfold solve_with_fallback, prob_solve at 1. now rewrite H.
Qed.

(** What the two [is_covered] methods return, by the status that the
    solve attempts leave: the rectangular one returns [True] exactly for
    the status [None] and the string "optimal"; the ellipsoidal one
    returns [False] exactly for a status string that contains
    "infeasible". *)
Lemma is_covered_follows_status (order : Order)
    (obj1 obj2 : confidence_region) (slackness : scalar_or_vector) :
  (forall p sol,
     Rectangular_cover_problem well_shaped order obj1 obj2 slackness = Ok p ->
     solve_with_fallback solve p = Ok sol ->
     exists b,
       Rectangular_is_covered solve well_shaped order obj1 obj2 slackness
         = Ok b /\
       (b = true <->
        status sol = None \/ status sol = Some "optimal"%string)) /\
  (forall p sol st,
     Ellipsoidal_cover_problem inv sqrtm well_shaped cons_well_shaped
       order obj1 obj2 slackness = Ok p ->
     solve_with_fallback solve p = Ok sol ->
     status sol = Some st ->
     exists b,
       Ellipsoidal_is_covered inv sqrtm solve well_shaped cons_well_shaped
         order obj1 obj2 slackness = Ok b /\
       (b = false <-> str_in "infeasible" st = true)).
Proof.
  split.
  - intros p sol Hp Hsol. unfold Rectangular_is_covered.
    rewrite Hp. cbn [bind]. rewrite Hsol. cbn [bind].
    destruct (status sol) as [st|].
    + eexists. split; [reflexivity|]. rewrite String.eqb_eq. split.
      * intros ->. now right.
      * intros [H|H]; [discriminate | now injection H].
    + exists true. split; [reflexivity|]. split; auto.
  - intros p sol st Hp Hsol Hst. unfold Ellipsoidal_is_covered.
    rewrite Hp. cbn [bind]. rewrite Hsol. cbn [bind]. rewrite Hst.
    destruct (str_in "infeasible" st).
    + exists false. split; [reflexivity|]. split; auto.
    + exists true. split; [reflexivity|]. split; discriminate.
Qed.

(** C1 fails on the code, in each method on a status that the other
    method treats as the claim says.  When the solve attempts leave the
    status "optimal_inaccurate" (a point is reported, at reduced
    accuracy; no infeasibility is reported), the rectangular
    [is_covered] returns [False] because it compares the status with
    "optimal", while the ellipsoidal [is_covered] returns [True].  When
    they leave no status, the rectangular method returns [True] through
    its [status is None] test, while the ellipsoidal method has no such
    test and raises [TypeError] at ["infeasible" in prob.status]. *)
Theorem C1_is_covered_methods_disagree (order : Order)
    (obj1 obj2 : confidence_region) (slackness : scalar_or_vector) :
  (forall p sol,
     Rectangular_cover_problem well_shaped order obj1 obj2 slackness = Ok p ->
     solve_with_fallback solve p = Ok sol ->
     status sol = Some "optimal_inaccurate"%string ->
     Rectangular_is_covered solve well_shaped order obj1 obj2 slackness
     = Ok false) /\
  (forall p sol,
     Ellipsoidal_cover_problem inv sqrtm well_shaped cons_well_shaped
       order obj1 obj2 slackness = Ok p ->
     solve_with_fallback solve p = Ok sol ->
     status sol = Some "optimal_inaccurate"%string ->
     Ellipsoidal_is_covered inv sqrtm solve well_shaped cons_well_shaped
       order obj1 obj2 slackness = Ok true) /\
  (forall p sol,
     Rectangular_cover_problem well_shaped order obj1 obj2 slackness = Ok p ->
     solve_with_fallback solve p = Ok sol ->
     status sol = None ->
     Rectangular_is_covered solve well_shaped order obj1 obj2 slackness
     = Ok true) /\
  (forall p sol,
     Ellipsoidal_cover_problem inv sqrtm well_shaped cons_well_shaped
       order obj1 obj2 slackness = Ok p ->
     solve_with_fallback solve p = Ok sol ->
     status sol = None ->
     Ellipsoidal_is_covered inv sqrtm solve well_shaped cons_well_shaped
       order obj1 obj2 slackness = Raise TypeError).
Proof.
  split; [|split; [|split]]; intros p sol Hp Hsol Hst.
  - unfold Rectangular_is_covered. rewrite Hp. cbn [bind].
    rewrite Hsol. cbn [bind]. rewrite Hst. reflexivity.
  - unfold Ellipsoidal_is_covered. rewrite Hp. cbn [bind].
    rewrite Hsol. cbn [bind]. rewrite Hst. reflexivity.
  - unfold Rectangular_is_covered. rewrite Hp. cbn [bind].
    rewrite Hsol. cbn [bind]. rewrite Hst. reflexivity.
  - unfold Ellipsoidal_is_covered. rewrite Hp. cbn [bind].
    rewrite Hsol. cbn [bind]. rewrite Hst. reflexivity.
Qed.

End Covering.

Lemma C1_is_covered_methods_disagree_witness :
  let solve := primary_fails (Solved inaccurate_solution) in
  Rectangular_is_covered solve all_shapes_ok (cone_order identity_2)
    unit_box corner_box (Scalar 0) = Ok false /\
  Ellipsoidal_is_covered inv_diagonal sqrtm_diagonal solve all_shapes_ok
    all_cons_ok (cone_order identity_2) unit_ball unit_ball (Scalar 0)
  = Ok true.
Proof.
  split.
  - refine (proj1 (C1_is_covered_methods_disagree inv_diagonal
              sqrtm_diagonal (primary_fails (Solved inaccurate_solution))
              all_shapes_ok all_cons_ok (cone_order identity_2)
              unit_box corner_box (Scalar 0)) _ inaccurate_solution
              eq_refl eq_refl eq_refl).
  - refine (proj1 (proj2 (C1_is_covered_methods_disagree inv_diagonal
              sqrtm_diagonal (primary_fails (Solved inaccurate_solution))
              all_shapes_ok all_cons_ok (cone_order identity_2)
              unit_ball unit_ball (Scalar 0))) _ inaccurate_solution
              eq_refl eq_refl eq_refl).
Defined.

Example is_covered_infeasible :
  Rectangular_is_covered (solver_reporting (Some "infeasible"%string))
    all_shapes_ok (cone_order identity_2) far_box unit_box (Scalar 0)
  = Ok false /\
  Ellipsoidal_is_covered inv_diagonal sqrtm_diagonal
    (solver_reporting (Some "infeasible_inaccurate"%string))
    all_shapes_ok all_cons_ok (cone_order identity_2)
    unit_ball unit_ball (Scalar 0) = Ok false.
Proof. split; reflexivity. Qed.

Example ellipsoidal_is_covered_status_none :
  Ellipsoidal_is_covered inv_diagonal sqrtm_diagonal (solver_reporting None)
    all_shapes_ok all_cons_ok (cone_order identity_2)
    unit_ball unit_ball (Scalar 0) = Raise TypeError.
Proof. reflexivity. Qed.

(** ** The fallback solver *)

Section Fallback.

Variable inv : matrix -> option matrix.
Variable sqrtm : matrix -> matrix.
Variable solve : solver_name -> problem -> solve_outcome.
Variable well_shaped : problem -> bool.
Variable cons_well_shaped : nat -> ellipsoid_constraint -> bool.

(** One guarded solve: the answer of the primary solver when it
    returns, the answer of SCS when it raises, and [SolverError] only
    when both raise. *)
Lemma solve_with_fallback_cases (p : problem) :
  solve_with_fallback solve p =
  match solve DEFAULT p with
  | Solved sol => Ok sol
  | Fails =>
      match solve SCS p with
      | Solved sol => Ok sol
      | Fails => Raise SolverError
      end
  end.
Proof.
  unfold solve_with_fallback, prob_solve, try_except.
  destruct (solve DEFAULT p); reflexivity.
Qed.

Lemma fallback_is_policy (p : problem) :
  solve_with_fallback solve p =
  solve_with_fallback (primary_then_SCS solve) p.
Proof.
  unfold solve_with_fallback, prob_solve, try_except, primary_then_SCS.
  destruct (solve DEFAULT p); [reflexivity|]. simpl.
  destruct (solve SCS p); reflexivity.
Qed.

Lemma Rectangular_is_covered_retries (order : Order)
    (obj1 obj2 : confidence_region) (slackness : scalar_or_vector) :
  Rectangular_is_covered solve well_shaped order obj1 obj2 slackness =
  Rectangular_is_covered (primary_then_SCS solve) well_shaped order
    obj1 obj2 slackness.
Proof.
  unfold Rectangular_is_covered.
  destruct (Rectangular_cover_problem _ _ _ _ _) as [p|e]; [|reflexivity].
  cbn [bind]. now rewrite fallback_is_policy.
Qed.

Lemma Ellipsoidal_is_covered_retries (order : Order)
    (obj1 obj2 : confidence_region) (slackness : scalar_or_vector) :
  Ellipsoidal_is_covered inv sqrtm solve well_shaped cons_well_shaped
    order obj1 obj2 slackness =
  Ellipsoidal_is_covered inv sqrtm (primary_then_SCS solve) well_shaped
    cons_well_shaped order obj1 obj2 slackness.
Proof.
  unfold Ellipsoidal_is_covered.
  destruct (Ellipsoidal_cover_problem _ _ _ _ _ _ _ _) as [p|e];
    [|reflexivity].
  cbn [bind]. now rewrite fallback_is_policy.
Qed.

Lemma Ellipsoidal_is_dominated_retries (order : Order)
    (obj1 obj2 : confidence_region) (slackness : scalar_or_vector) :
  Ellipsoidal_is_dominated inv sqrtm solve well_shaped cons_well_shaped
    order obj1 obj2 slackness =
  Ellipsoidal_is_dominated inv sqrtm (primary_then_SCS solve) well_shaped
    cons_well_shaped order obj1 obj2 slackness.
Proof.
  unfold Ellipsoidal_is_dominated.
  destruct (attr_center obj1) as [c1|e]; [|reflexivity]. cbn [bind].
  match goal with |- bind ?a _ = _ => destruct a as [[]|e] end;
    [|reflexivity].
  cbn [bind].
  destruct (ellipsoid_cons _ _ _ _ obj1) as [cons1|e]; [|reflexivity].
  cbn [bind].
  destruct (ellipsoid_cons _ _ _ _ obj2) as [cons2|e]; [|reflexivity].
  cbn [bind]. f_equal. apply for_each_ext_in. intros n _.
  destruct (cp_Problem _ _) as [p|e]; [|reflexivity]. cbn [bind].
  now rewrite fallback_is_policy.
Qed.

Lemma get_alpha_does_not_retry (rind : nat) (W : matrix) (p : problem) :
  alpha_problem well_shaped rind W = Ok p ->
  solve DEFAULT p = Fails ->
  get_alpha solve well_shaped rind W = Raise SolverError.
Proof.
  intros Hp Hfail. unfold get_alpha. rewrite Hp. cbn [bind].
  unfold prob_solve. now rewrite Hfail.
Qed.

Lemma is_covered_does_not_retry (vi vj : vec) (eps : Q) (W : matrix)
    (shift : vec) :
  broadcast Qminus vi vj = Ok shift ->
  well_shaped (PointCoverProblem W shift eps) = true ->
  solve DEFAULT (PointCoverProblem W shift eps) = Fails ->
  is_covered solve well_shaped vi vj eps W = Raise SolverError.
Proof.
  intros Hs Hw Hfail. unfold is_covered. rewrite Hs. cbn [bind].
  unfold cp_Problem. rewrite Hw. cbn [bind].
  unfold prob_solve. now rewrite Hfail.
Qed.

End Fallback.

(** C7 fails on the code for the two solves of utils.py.  Every solve of
    the confidence regions -- [is_covered] of both variants and each row
    of the ellipsoidal [is_dominated] -- follows the retry policy, solve
    by solve: the methods return what they return when every problem is
    answered by the primary solver, or by SCS where the primary solver
    raises.  [get_alpha] and the point-wise [is_covered] call
    [prob.solve()] once, outside any [try]: when the primary solver
    raises on their problem, [SolverError] propagates, whatever SCS
    would answer. *)
Theorem C7_utils_solves_have_no_fallback
    (inv : matrix -> option matrix) (sqrtm : matrix -> matrix)
    (solve : solver_name -> problem -> solve_outcome)
    (well_shaped : problem -> bool)
    (cons_well_shaped : nat -> ellipsoid_constraint -> bool) :
  (forall rind W p,
     alpha_problem well_shaped rind W = Ok p ->
     solve DEFAULT p = Fails ->
     get_alpha solve well_shaped rind W = Raise SolverError) /\
  (forall vi vj eps W shift,
     broadcast Qminus vi vj = Ok shift ->
     well_shaped (PointCoverProblem W shift eps) = true ->
     solve DEFAULT (PointCoverProblem W shift eps) = Fails ->
     is_covered solve well_shaped vi vj eps W = Raise SolverError) /\
  (forall order obj1 obj2 slackness,
     Rectangular_is_covered solve well_shaped order obj1 obj2 slackness =
     Rectangular_is_covered (primary_then_SCS solve) well_shaped order
       obj1 obj2 slackness) /\
  (forall order obj1 obj2 slackness,
     Ellipsoidal_is_covered inv sqrtm solve well_shaped cons_well_shaped
       order obj1 obj2 slackness =
     Ellipsoidal_is_covered inv sqrtm (primary_then_SCS solve) well_shaped
       cons_well_shaped order obj1 obj2 slackness) /\
  (forall order obj1 obj2 slackness,
     Ellipsoidal_is_dominated inv sqrtm solve well_shaped cons_well_shaped
       order obj1 obj2 slackness =
     Ellipsoidal_is_dominated inv sqrtm (primary_then_SCS solve) well_shaped
       cons_well_shaped order obj1 obj2 slackness) /\
  (forall p,
     solve_with_fallback solve p =
     match solve DEFAULT p with
     | Solved sol => Ok sol
     | Fails =>
         match solve SCS p with
         | Solved sol => Ok sol
         | Fails => Raise SolverError
         end
     end).
Proof.
  split; [|split; [|split; [|split; [|split]]]].
  - intros. eapply get_alpha_does_not_retry; eassumption.
  - intros. eapply is_covered_does_not_retry; eassumption.
  - intros. apply Rectangular_is_covered_retries.
  - intros. apply Ellipsoidal_is_covered_retries.
  - intros. apply Ellipsoidal_is_dominated_retries.
  - intros. apply solve_with_fallback_cases.
Qed.

Lemma C7_utils_solves_have_no_fallback_witness :
  let solve := primary_fails (Solved optimal_solution) in
  (exists p,
     alpha_problem all_shapes_ok 0 identity_2 = Ok p /\
     prob_solve solve SCS p = Ok optimal_solution /\
     get_alpha solve all_shapes_ok 0 identity_2 = Raise SolverError) /\
  (exists p,
     cp_Problem all_shapes_ok (PointCoverProblem identity_2 [-1 # 1; -1 # 1]
                                 (1 # 10)) = Ok p /\
     prob_solve solve SCS p = Ok optimal_solution /\
     is_covered solve all_shapes_ok [0; 0] [1; 1] (1 # 10) identity_2
     = Raise SolverError) /\
  Rectangular_is_covered solve all_shapes_ok (cone_order identity_2)
    unit_box far_box (Scalar 0) = Ok true.
Proof.
  pose proof (C7_utils_solves_have_no_fallback inv_diagonal sqrtm_diagonal
                (primary_fails (Solved optimal_solution)) all_shapes_ok
                all_cons_ok) as (Halpha & Hpoint & Hrect & _).
  cbv zeta. split; [|split].
  - eexists. split; [reflexivity|]. split; [reflexivity|].
    eapply Halpha; reflexivity.
  - eexists. split; [reflexivity|]. split; [reflexivity|].
    eapply Hpoint; reflexivity.
  - rewrite Hrect. reflexivity.
Defined.

(** ** Dispatch helpers *)

Section NeverRaises.

Variable e : exn.

Lemma nr_ok {A : Type} (a : A) : never_raises e (Ok a).
Proof. unfold never_raises. discriminate. Qed.

Lemma nr_raise {A : Type} (e' : exn) :
  e' <> e -> never_raises e (@Raise A e').
Proof. unfold never_raises. congruence. Qed.

Lemma nr_bind {A B : Type} (m : result A) (k : A -> result B) :
  never_raises e m -> (forall a, never_raises e (k a)) ->
  never_raises e (bind m k).
Proof.
  unfold never_raises. destruct m as [a|e']; simpl; [auto | congruence].
Qed.

Lemma nr_for_each {A R : Type} (l : list A)
    (body : A -> result (option R)) :
  (forall x, never_raises e (body x)) -> never_raises e (for_each l body).
Proof.
  intros H. induction l as [|x l IH]; simpl; [apply nr_ok|].
  apply nr_bind; [apply H|]. intros [r|]; [apply nr_ok | exact IH].
Qed.

Lemma nr_for_state {S A : Type} (body : S -> A -> result S) (l : list A) :
  (forall s x, never_raises e (body s x)) ->
  forall s, never_raises e (for_state body l s).
Proof.
  intros H. induction l as [|x l IH]; intros s; simpl; [apply nr_ok|].
  apply nr_bind; [apply H | exact IH].
Qed.

Lemma nr_map_result {A B : Type} (f : A -> result B) (l : list A) :
  (forall x, never_raises e (f x)) -> never_raises e (map_result f l).
Proof.
  intros H. induction l as [|x l IH]; simpl; [apply nr_ok|].
  apply nr_bind; [apply H|]. intros y.
  apply nr_bind; [exact IH|]. intros ys. apply nr_ok.
Qed.

Lemma nr_try_except {A : Type} (body handler : result A) (e' : exn) :
  never_raises e body -> never_raises e handler ->
  never_raises e (try_except body e' handler).
Proof.
  unfold never_raises, try_except. destruct body as [a|e'']; [discriminate|].
  destruct (exn_eqb e' e''); congruence.
Qed.

End NeverRaises.

Ltac never_raises_step :=
  first
    [ apply nr_ok
    | apply nr_raise; discriminate
    | apply nr_bind; [|intros]
    | apply nr_for_each; intros
    | apply nr_for_state; intros
    | apply nr_map_result; intros
    | apply nr_try_except
    | match goal with
      | |- never_raises _ (if ?c then _ else _) => destruct c
      | |- never_raises _ (match ?x with _ => _ end) => destruct x
      end ].

Ltac never_raises := repeat never_raises_step.

Lemma nr_broadcast {A : Type} (f : Q -> Q -> A) (a b : vec) :
  never_raises NotImplementedError (broadcast f a b).
Proof. unfold broadcast. never_raises. Qed.

Lemma nr_broadcast_sv (f : Q -> Q -> Q) (a : vec) (x : scalar_or_vector) :
  never_raises NotImplementedError (broadcast_sv f a x).
Proof. destruct x; simpl; [apply nr_ok | apply nr_broadcast]. Qed.

Lemma nr_attr_lower (obj : confidence_region) :
  never_raises NotImplementedError (attr_lower obj).
Proof. unfold attr_lower. never_raises. Qed.

Lemma nr_attr_upper (obj : confidence_region) :
  never_raises NotImplementedError (attr_upper obj).
Proof. unfold attr_upper. never_raises. Qed.

Lemma nr_attr_center (obj : confidence_region) :
  never_raises NotImplementedError (attr_center obj).
Proof.
  unfold attr_center. destruct obj; never_raises. apply nr_broadcast.
Qed.

Lemma nr_attr_sigma (obj : confidence_region) :
  never_raises NotImplementedError (attr_sigma obj).
Proof. unfold attr_sigma. never_raises. Qed.

Lemma nr_attr_alpha (obj : confidence_region) :
  never_raises NotImplementedError (attr_alpha obj).
Proof. unfold attr_alpha. never_raises. Qed.

Lemma nr_assert (b : bool) : never_raises NotImplementedError (assert b).
Proof. unfold assert. never_raises. Qed.

Lemma nr_getitem {A : Type} (l : list A) (i : nat) :
  never_raises NotImplementedError (getitem l i).
Proof. unfold getitem. never_raises. Qed.

Lemma nr_matmul (W : matrix) (v : vec) :
  never_raises NotImplementedError (matmul W v).
Proof. unfold matmul. never_raises. Qed.

Lemma nr_prob_solve (solve : solver_name -> problem -> solve_outcome)
    (s : solver_name) (p : problem) :
  never_raises NotImplementedError (prob_solve solve s p).
Proof. unfold prob_solve. never_raises. Qed.

Lemma nr_cp_Problem (well_shaped : problem -> bool) (p : problem) :
  never_raises NotImplementedError (cp_Problem well_shaped p).
Proof. unfold cp_Problem. never_raises. Qed.

Create HintDb never_raises.
#[local] Hint Resolve nr_broadcast nr_broadcast_sv nr_attr_lower nr_attr_upper
  nr_attr_center nr_attr_sigma nr_attr_alpha nr_assert nr_getitem nr_matmul
  nr_prob_solve nr_cp_Problem : never_raises.





Section Dispatch.

Variable inv : matrix -> option matrix.
Variable sqrtm : matrix -> matrix.
Variable solve : solver_name -> problem -> solve_outcome.
Variable well_shaped : problem -> bool.
Variable cons_well_shaped : nat -> ellipsoid_constraint -> bool.








End Dispatch.


Example check_dominates_boxes :
  confidence_region_check_dominates (cone_order identity_2) unit_box far_box
  = Ok false /\
  confidence_region_check_dominates (cone_order identity_2) far_box unit_box
  = Ok true.
Proof. split; reflexivity. Qed.

(** * Further properties of the geometry, the gap statistics and the regions *)

(** ** Intersection of boxes *)

(** X1: for two boxes of one dimension,
    [hyperrectangle_check_intersection] is symmetric: exchanging the
    boxes does not change what it returns. *)
Theorem check_intersection_symmetric (lower1 upper1 lower2 upper2 : vec) :
  length lower1 = length upper2 -> length upper1 = length lower2 ->
  hyperrectangle_check_intersection lower1 upper1 lower2 upper2 =
  hyperrectangle_check_intersection lower2 upper2 lower1 upper1.
Proof.
  intros H1 H2.
  destruct (check_intersection_strict lower1 upper1 lower2 upper2 H1 H2)
    as [b [Hb Hiff]].
  destruct (check_intersection_strict lower2 upper2 lower1 upper1
              (eq_sym H2) (eq_sym H1)) as [b' [Hb' Hiff']].
  rewrite Hb, Hb'. f_equal.
  apply eq_true_iff_eq. rewrite Hiff, Hiff'. rewrite H1, <- H2. tauto.
Qed.

Lemma check_intersection_symmetric_witness :
  hyperrectangle_check_intersection [0; 0] [1; 1] [1 # 2; 1 # 2] [3 # 2; 3 # 2] =
  hyperrectangle_check_intersection [1 # 2; 1 # 2] [3 # 2; 3 # 2] [0; 0] [1; 1].
Proof.
  apply check_intersection_symmetric; reflexivity.
Defined.

(** X2: a box is reported to intersect itself exactly when every one of
    its widths is strictly positive: a box that is flat in some
    coordinate (a single point, for one) does not intersect itself. *)
Theorem box_intersects_itself_iff_positive_width (lower upper : vec) :
  length lower = length upper ->
  exists b,
    hyperrectangle_check_intersection lower upper lower upper = Ok b /\
    (b = true <->
     forall d, (d < length lower)%nat -> nth d lower 0 < nth d upper 0).
Proof.
  intros H.
  destruct (check_intersection_strict lower upper lower upper H (eq_sym H))
    as [b [Hb Hiff]].
  exists b. split; [assumption|]. rewrite Hiff. rewrite <- H. tauto.
Qed.

Lemma box_intersects_itself_witness :
  exists b,
    hyperrectangle_check_intersection [0; 1] [1; 1] [0; 1] [1; 1] = Ok b /\
    (b = true <->
     forall d, (d < 2)%nat -> nth d [0; 1] 0 < nth d [1; 1] 0).
Proof.
  apply (box_intersects_itself_iff_positive_width [0; 1] [1; 1]). reflexivity.
Defined.

(** ** The half-space form of a box *)

Lemma dot_cons (r : Q) (row : vec) (y : Q) (x : vec) :
  dot (r :: row) (y :: x) = r * y + dot row x.
Proof. reflexivity. Qed.

Lemma dot_indicator (i : nat) (s : Q) (x : vec) :
  forall a,
    dot (map (fun j => if (i =? j)%nat then s else 0) (seq a (length x))) x ==
    if ((a <=? i) && (i <? a + length x))%nat then s * nth (i - a) x 0 else 0.
Proof.
  induction x as [|y x IH]; intros a.
  - simpl. destruct ((a <=? i)%nat && (i <? a + 0)%nat) eqn:E; [|reflexivity].
    apply andb_prop in E. destruct E as [E1 E2].
    apply Nat.leb_le in E1. apply Nat.ltb_lt in E2. lia.
  - cbn [length seq map]. rewrite dot_cons, IH.
    destruct (Nat.eqb_spec i a) as [->|Hne].
    + rewrite Nat.leb_refl. cbn [andb].
      assert ((a <? a + S (length x))%nat = true) as -> by (apply Nat.ltb_lt; lia).
      assert ((S a <=? a)%nat = false) as -> by (apply Nat.leb_gt; lia).
      rewrite Nat.sub_diag. simpl. ring.
    + destruct (a <=? i)%nat eqn:E1.
      * apply Nat.leb_le in E1.
        assert ((S a <=? i)%nat = true) as -> by (apply Nat.leb_le; lia).
        replace (a + S (length x))%nat with (S a + length x)%nat by lia.
        destruct (i <? S a + length x)%nat; cbn [andb]; [|ring].
        replace (i - a)%nat with (S (i - S a)) by lia. simpl. ring.
      * apply Nat.leb_gt in E1.
        assert ((S a <=? i)%nat = false) as -> by (apply Nat.leb_gt; lia).
        simpl. ring.
Qed.

Lemma dot_eye_row (dim i : nat) (s : Q) (x : vec) :
  length x = dim -> (i < dim)%nat -> dot (eye_row dim i s) x == s * nth i x 0.
Proof.
  intros Hx Hi. unfold eye_row. rewrite <- Hx, dot_indicator.
  assert ((i <? 0 + length x)%nat = true) as -> by (apply Nat.ltb_lt; lia).
  simpl. now rewrite Nat.sub_0_r.
Qed.

(** X3: the pair that [hyperrectangle_get_region_matrix] returns
    describes the closed box: for a point [x] of the dimension of the
    bounds, [region_matrix @ x >= region_boundary] holds in every row if
    and only if [lower <= x <= upper] in every coordinate. *)
Theorem region_matrix_contains_iff (lower upper x : vec) (D : nat) :
  length lower = D -> length upper = D -> length x = D ->
  exists b,
    region_contains (hyperrectangle_get_region_matrix lower upper) x = Ok b /\
    (b = true <->
     forall d, (d < D)%nat -> nth d lower 0 <= nth d x 0 <= nth d upper 0).
Proof.
  intros Hl Hu Hx. unfold region_contains, hyperrectangle_get_region_matrix.
  cbv zeta. cbn [fst snd]. rewrite Hl.
  set (M := map (fun i => eye_row D i 1) (seq 0 D)
            ++ map (fun i => eye_row D i (-1)) (seq 0 D)).
  assert (length M = (D + D)%nat) as HM
    by (subst M; now rewrite length_app, !length_map, length_seq).
  rewrite matmul_rows.
  2:{ apply Forall_forall. intros row Hrow. subst M. apply in_app_or in Hrow.
      destruct Hrow as [Hrow|Hrow]; apply in_map_iff in Hrow;
        destruct Hrow as [i [<- _]]; unfold eye_row;
        now rewrite length_map, length_seq. }
  cbn [bind].
  rewrite broadcast_same_length
    by (rewrite length_map, length_app, length_map; lia).
  cbn [bind]. eexists. split; [reflexivity|].
  rewrite np_all_true, length_map2, length_map, length_app, length_map, HM, Hl, Hu,
    Nat.min_id.
  assert (forall d, (d < D + D)%nat ->
            nth d (map2 Qge_bool (map (fun row => dot row x) M)
                     (lower ++ map Qopp upper)) true = true <->
            (if (d <? D)%nat then nth d lower 0 <= nth d x 0
             else nth (d - D) x 0 <= nth (d - D) upper 0)) as Hd.
  { intros d Hd.
    rewrite (nth_map2 _ _ _ _ 0 0)
      by (rewrite ?length_map, ?length_app, ?length_map; lia).
    unfold Qge_bool. rewrite Qle_bool_iff.
    rewrite (nth_indep (map (fun row => dot row x) M) 0 (dot [] x))
      by (rewrite length_map; lia).
    rewrite (map_nth (fun row => dot row x)). subst M.
    destruct (d <? D)%nat eqn:E.
    - apply Nat.ltb_lt in E.
      rewrite !app_nth1 by (rewrite ?length_map, ?length_seq; lia).
      rewrite (nth_indep _ [] (eye_row D 0 1))
        by (rewrite length_map, length_seq; lia).
      rewrite (map_nth (fun i => eye_row D i 1)), seq_nth by lia.
      rewrite dot_eye_row by (simpl; lia). simpl. split; intros H; lra.
    - apply Nat.ltb_ge in E.
      rewrite !app_nth2 by (rewrite ?length_map, ?length_seq; lia).
      rewrite !length_map, length_seq, Hl.
      rewrite (nth_indep _ [] (eye_row D 0 (-1)))
        by (rewrite length_map, length_seq; lia).
      rewrite (map_nth (fun i => eye_row D i (-1))), seq_nth by lia.
      rewrite dot_eye_row by (simpl; lia).
      rewrite (nth_indep _ 0 (- 0)) by (rewrite length_map; lia).
      rewrite (map_nth Qopp). simpl. split; intros H; lra. }
  split.
  - intros H d Hlt. split.
    + specialize (proj1 (Hd d ltac:(lia)) (H d ltac:(lia))).
      assert ((d <? D)%nat = true) as -> by (apply Nat.ltb_lt; lia). auto.
    + specialize (proj1 (Hd (d + D)%nat ltac:(lia)) (H (d + D)%nat ltac:(lia))).
      assert ((d + D <? D)%nat = false) as -> by (apply Nat.ltb_ge; lia).
      now rewrite Nat.add_sub.
  - intros H d Hlt. apply Hd; [assumption|].
    destruct (d <? D)%nat eqn:E.
    + apply Nat.ltb_lt in E. apply H. assumption.
    + apply Nat.ltb_ge in E. apply H. lia.
Qed.

Lemma region_matrix_contains_witness :
  exists b,
    region_contains (hyperrectangle_get_region_matrix [0; 0] [1; 1])
      [1 # 2; 1] = Ok b /\
    (b = true <->
     forall d, (d < 2)%nat ->
       nth d [0; 0] 0 <= nth d [1 # 2; 1] 0 <= nth d [1; 1] 0).
Proof.
  apply (region_matrix_contains_iff [0; 0] [1; 1] [1 # 2; 1] 2); reflexivity.
Defined.


(** ** The corners of a box *)

(** X4: bounds of different lengths are not rejected by
    [hyperrectangle_get_vertices]: [zip] pairs them up to the shorter
    one, and the result has 2^D corners of D coordinates each, for D the
    smaller of the two lengths. *)
Theorem vertices_truncate_to_shorter_bound (lower upper : vec) :
  let D := Nat.min (length lower) (length upper) in
  length (hyperrectangle_get_vertices lower upper) = (2 ^ D)%nat /\
  forall v, In v (hyperrectangle_get_vertices lower upper) -> length v = D.
Proof.
  intros D. split.
  - unfold hyperrectangle_get_vertices. cbv zeta.
    destruct (product_pairs_binary (combine lower upper)) as [H _].
    rewrite length_combine in H. exact H.
  - intros v Hv. apply in_vertices_iff in Hv. now apply is_vertex_length.
Qed.

Lemma bits_small (D k i : nat) :
  (k < 2 ^ D)%nat -> (D <= i)%nat -> Nat.testbit k i = false.
Proof.
  intros Hk Hi. destruct k as [|k]; [apply Nat.bits_0|].
  apply Nat.bits_above_log2.
  assert (Nat.log2 (S k) < D)%nat by (apply Nat.log2_lt_pow2; lia). lia.
Qed.

Lemma bounded_bits_differ (D : nat) (f g : nat -> bool) :
  (forall i, (i < D)%nat -> f i = g i) \/
  (exists i, (i < D)%nat /\ f i <> g i).
Proof.
  induction D as [|D IH].
  - left. intros i Hi. lia.
  - destruct IH as [IH|[i [Hi Hne]]].
    + destruct (bool_dec (f D) (g D)) as [E|E].
      * left. intros i Hi. destruct (Nat.eq_dec i D) as [->|]; [assumption|].
        apply IH. lia.
      * right. exists D. split; [lia | assumption].
    + right. exists i. split; [lia | assumption].
Qed.

Lemma distinct_indices_differ_in_a_bit (D k k' : nat) :
  (k < 2 ^ D)%nat -> (k' < 2 ^ D)%nat -> k <> k' ->
  exists i, (i < D)%nat /\ Nat.testbit k i <> Nat.testbit k' i.
Proof.
  intros Hk Hk' Hne.
  destruct (bounded_bits_differ D (Nat.testbit k) (Nat.testbit k'))
    as [Heq|Hex]; [exfalso|assumption].
  apply Hne. apply Nat.bits_inj. intros i.
  destruct (Nat.lt_ge_cases i D) as [Hi|Hi]; [now apply Heq|].
  now rewrite (bits_small D k i), (bits_small D k' i).
Qed.

(** X5: when no width of the box is zero, the 2^D corners returned by
    [hyperrectangle_get_vertices] are pairwise different: two corners at
    different positions of the result differ in some coordinate. *)
Theorem vertices_distinct_when_no_width_is_zero (lower upper : vec) (D : nat) :
  length lower = D -> length upper = D ->
  (forall d, (d < D)%nat -> ~ nth d lower 0 == nth d upper 0) ->
  forall k k', (k < 2 ^ D)%nat -> (k' < 2 ^ D)%nat -> k <> k' ->
    exists d, (d < D)%nat /\
      ~ nth d (nth k (hyperrectangle_get_vertices lower upper) []) 0 ==
        nth d (nth k' (hyperrectangle_get_vertices lower upper) []) 0.
Proof.
  intros Hl Hu Hw k k' Hk Hk' Hne.
  destruct (distinct_indices_differ_in_a_bit D k k' Hk Hk' Hne)
    as [i [Hi Hbit]].
  exists (D - 1 - i)%nat. split; [lia|].
  unfold hyperrectangle_get_vertices. cbv zeta.
  destruct (product_pairs_binary (combine lower upper)) as [_ Hnth].
  rewrite length_combine, Hl, Hu, Nat.min_id in Hnth.
  destruct (Hnth k Hk) as [_ Hv]. destruct (Hnth k' Hk') as [_ Hv'].
  specialize (Hv (D - 1 - i)%nat ltac:(lia)).
  specialize (Hv' (D - 1 - i)%nat ltac:(lia)).
  unfold vec, matrix in *. rewrite Hv, Hv'. clear Hv Hv'.
  replace (D - 1 - (D - 1 - i))%nat with i by lia.
  rewrite combine_nth by lia. cbn [fst snd].
  specialize (Hw (D - 1 - i)%nat ltac:(lia)).
  destruct (Nat.testbit k i), (Nat.testbit k' i); congruence.
Qed.

Lemma vertices_distinct_witness :
  exists d, (d < 2)%nat /\
    ~ nth d (nth 1 (hyperrectangle_get_vertices [0; 0] [1; 1]) []) 0 ==
      nth d (nth 2 (hyperrectangle_get_vertices [0; 0] [1; 1]) []) 0.
Proof.
  apply (vertices_distinct_when_no_width_is_zero [0; 0] [1; 1] 2);
    try reflexivity; simpl; try lia.
  intros [|[|d]] Hd; simpl; try lia; intros H; discriminate H.
Defined.

(** ** The margin m(i, j) and the gaps *)

(** What get_smallmij computes on inputs of the documented shapes. *)
Lemma get_smallmij_unfold (vi vj : vec) (W : matrix) (alpha_vec : alpha_array)
    (D : nat) :
  gap_input [vi; vj] W alpha_vec D ->
  get_smallmij vi vj W alpha_vec =
  (quot <- divide_by_alpha
             (map clip (map (fun row => dot row (map2 Qminus vj vi)) W))
             alpha_vec ;;
   array_min quot).
Proof.
  intros (HW & Hrows & Hmu & Hal & Hpos).
  pose proof (Forall_inv Hmu) as Hvi.
  pose proof (Forall_inv (Forall_inv_tail Hmu)) as Hvj. simpl in Hvi, Hvj.
  unfold get_smallmij.
  rewrite broadcast_same_length by congruence. cbn [bind].
  rewrite matmul_rows
    by (rewrite length_map2, Hvi, Hvj, Nat.min_id; exact Hrows).
  reflexivity.
Qed.

Lemma in_map2_l {A B C : Type} (f : A -> B -> C) (a : list A) (b : list B)
    (x : A) :
  length a = length b -> In x a -> exists y, In y b /\ In (f x y) (map2 f a b).
Proof.
  revert b. induction a as [|h a IH]; intros [|y b] Hl Hin; simpl in *;
    try discriminate; try contradiction.
  destruct Hin as [->|Hin].
  - exists y. split; left; reflexivity.
  - destruct (IH b ltac:(lia) Hin) as [y' [Hy' Hf]]. exists y'.
    split; right; assumption.
Qed.

Lemma divide_by_alpha_covers (prod quot : vec) (alpha_vec : alpha_array) :
  divide_by_alpha prod alpha_vec = Ok quot ->
  length (alpha_entries alpha_vec) = length prod -> prod <> [] ->
  forall p, In p prod ->
    exists a, In a (alpha_entries alpha_vec) /\ In (p / a) quot.
Proof.
  intros Hq Hl Hne p Hp. destruct alpha_vec as [a|a]; simpl in *.
  - rewrite broadcast_same_length in Hq by congruence. injection Hq as <-.
    apply in_map2_l; congruence.
  - injection Hq as <-. destruct a as [|al a].
    + destruct prod; simpl in *; congruence.
    + exists al. split; [now left|]. apply in_flat_map. exists al.
      split; [now left|]. apply in_map_iff. exists p. auto.
Qed.

(** X6: on inputs of the documented shapes with positive alphas,
    [get_smallmij] returns a margin that is never negative, and the
    margin of a point against itself is zero. *)
Theorem get_smallmij_nonneg_zero_on_self (vi vj : vec) (W : matrix)
    (alpha_vec : alpha_array) (D : nat) :
  gap_input [vi; vj] W alpha_vec D ->
  (exists m, get_smallmij vi vj W alpha_vec = Ok m /\ 0 <= m) /\
  (exists m, get_smallmij vi vi W alpha_vec = Ok m /\ m == 0).
Proof.
  intros Hin. split; [now apply (get_smallmij_nonneg _ _ _ _ D)|].
  destruct (get_smallmij_nonneg vi vi W alpha_vec D) as [m [Hm _]].
  { destruct Hin as (HW & Hrows & Hmu & Hal & Hpos).
    repeat split; try assumption.
    pose proof (Forall_inv Hmu). repeat constructor; assumption. }
  exists m. split; [assumption|]. eapply get_smallmij_self; eassumption.
Qed.

Lemma sample_pair_column :
  gap_input [[1; 0]; [11 # 10; 2 # 10]] [[1; 0]; [0; 1]] (Column [1; 1]) 2.
Proof.
  exact (gap_input_pair _ _ _ _ 0%nat 1%nat test_means_gap_input
           ltac:(simpl; lia) ltac:(simpl; lia)).
Qed.

Lemma sample_pair_flat :
  gap_input [[1; 0]; [11 # 10; 2 # 10]] [[1; 0]; [0; 1]] (Flat [1; 2]) 2.
Proof.
  unfold gap_input. simpl.
  split; [discriminate|]. split; [repeat constructor|].
  split; [repeat constructor|]. split; [reflexivity|].
  repeat constructor.
Qed.

Lemma get_smallmij_nonneg_zero_on_self_witness :
  (exists m, get_smallmij [1; 0] [11 # 10; 2 # 10] [[1; 0]; [0; 1]]
               (Column [1; 1]) = Ok m /\ 0 <= m) /\
  (exists m, get_smallmij [1; 0] [1; 0] [[1; 0]; [0; 1]]
               (Column [1; 1]) = Ok m /\ m == 0).
Proof.
  exact (get_smallmij_nonneg_zero_on_self [1; 0] [11 # 10; 2 # 10]
           [[1; 0]; [0; 1]] (Column [1; 1]) 2 sample_pair_column).
Defined.


(** X8: with a one-dimensional alpha vector of shape (n_constraint,),
    [get_smallmij] returns the minimum over the rows [n] of
    [max(0, w_n . (vj - vi)) / alpha_n]: every row is divided by its own
    alpha. *)
Theorem get_smallmij_flat_alpha_is_formula (vi vj : vec) (W : matrix)
    (a : vec) (D : nat) :
  gap_input [vi; vj] W (Flat a) D ->
  exists m m',
    get_smallmij vi vj W (Flat a) = Ok m /\
    array_min (smallmij_formula vi vj W a) = Ok m' /\
    m == m'.
Proof.
  intros Hin. destruct (get_smallmij_nonneg _ _ _ _ D Hin) as [m [Hm _]].
  destruct (array_min_nonempty (smallmij_formula vi vj W a)) as [m' Hm'].
  { destruct Hin as (HW & _ & _ & Hal & _). simpl in Hal.
    unfold smallmij_formula, map2.
    destruct W, a; simpl in *; congruence. }
  exists m, m'. split; [assumption|]. split; [assumption|].
  eapply get_smallmij_flat_alpha; eassumption.
Qed.

Lemma get_smallmij_flat_alpha_witness :
  exists m m',
    get_smallmij [1; 0] [11 # 10; 2 # 10] [[1; 0]; [0; 1]] (Flat [1; 2])
    = Ok m /\
    array_min (smallmij_formula [1; 0] [11 # 10; 2 # 10] [[1; 0]; [0; 1]]
                 [1; 2]) = Ok m' /\
    m == m'.
Proof.
  exact (get_smallmij_flat_alpha_is_formula [1; 0] [11 # 10; 2 # 10]
           [[1; 0]; [0; 1]] [1; 2] 2 sample_pair_flat).
Defined.


(** X9: with an alpha vector of shape (n_constraint, 1),
    [get_smallmij] returns the minimum of
    [max(0, w_n . (vj - vi)) / alpha_k] over all pairs of a row [n] and
    an alpha [k]: it is a lower bound of all these quotients and it is
    one of them. *)
Theorem get_smallmij_column_alpha_is_min_over_all_pairs (vi vj : vec)
    (W : matrix) (a : vec) (D : nat) :
  gap_input [vi; vj] W (Column a) D ->
  exists m,
    get_smallmij vi vj W (Column a) = Ok m /\
    (forall row al, In row W -> In al a ->
       m <= Qmax 0 (dot row (map2 Qminus vj vi)) / al) /\
    (exists row al, In row W /\ In al a /\
       m == Qmax 0 (dot row (map2 Qminus vj vi)) / al).
Proof.
  intros Hin. destruct (get_smallmij_nonneg _ _ _ _ D Hin) as [m [Hm _]].
  exists m. split; [assumption|]. split.
  - now apply (get_smallmij_column_alpha vi vj W a D).
  - rewrite (get_smallmij_unfold _ _ _ _ D Hin) in Hm.
    cbn [divide_by_alpha bind] in Hm.
    apply array_min_spec in Hm. destruct Hm as [Hmem _].
    apply in_flat_map in Hmem. destruct Hmem as [al [Hal Hmem]].
    apply in_map_iff in Hmem. destruct Hmem as [p [<- Hp]].
    apply in_map_iff in Hp. destruct Hp as [p0 [<- Hp0]].
    apply in_map_iff in Hp0. destruct Hp0 as [row [<- Hrow]].
    exists row, al. split; [assumption|]. split; [assumption|].
    unfold clip. now rewrite clip_is_Qmax.
Qed.

Lemma get_smallmij_column_alpha_witness :
  exists m,
    get_smallmij [1; 0] [11 # 10; 2 # 10] [[1; 0]; [0; 1]] (Column [1; 1])
    = Ok m /\
    (forall row al, In row [[1; 0]; [0; 1]] -> In al [1; 1] ->
       m <= Qmax 0 (dot row (map2 Qminus [11 # 10; 2 # 10] [1; 0])) / al) /\
    (exists row al, In row [[1; 0]; [0; 1]] /\ In al [1; 1] /\
       m == Qmax 0 (dot row (map2 Qminus [11 # 10; 2 # 10] [1; 0])) / al).
Proof.
  exact (get_smallmij_column_alpha_is_min_over_all_pairs [1; 0]
           [11 # 10; 2 # 10] [[1; 0]; [0; 1]] [1; 1] 2 sample_pair_column).
Defined.


(** X10: when all alphas are equal, the alpha vector of shape
    (n_constraint, 1) and the one of shape (n_constraint,) give the same
    margin. *)
Theorem get_smallmij_column_agrees_with_flat_for_equal_alphas (vi vj : vec)
    (W : matrix) (a : vec) (D : nat) (a0 : Q) :
  gap_input [vi; vj] W (Column a) D ->
  (forall al, In al a -> al == a0) ->
  exists m m',
    get_smallmij vi vj W (Column a) = Ok m /\
    get_smallmij vi vj W (Flat a) = Ok m' /\
    m == m'.
Proof.
  intros Hin Heq.
  assert (gap_input [vi; vj] W (Flat a) D) as Hin' by exact Hin.
  destruct (get_smallmij_nonneg _ _ _ _ D Hin) as [m [Hm _]].
  destruct (get_smallmij_nonneg _ _ _ _ D Hin') as [m' [Hm' _]].
  exists m, m'. split; [assumption|]. split; [assumption|].
  pose proof Hm as Hc. pose proof Hm' as Hf.
  rewrite (get_smallmij_unfold _ _ _ _ D Hin) in Hc.
  rewrite (get_smallmij_unfold _ _ _ _ D Hin') in Hf.
  set (prod := map clip (map (fun row => dot row (map2 Qminus vj vi)) W)) in *.
  destruct (divide_by_alpha prod (Column a)) as [qc|e] eqn:Hqc; [|discriminate].
  destruct (divide_by_alpha prod (Flat a)) as [qf|e] eqn:Hqf; [|discriminate].
  cbn [bind] in Hc, Hf. apply array_min_spec in Hc, Hf.
  destruct Hc as [Hcm Hcl], Hf as [Hfm Hfl].
  destruct Hin as (HW & Hrows & Hmu & Hal & Hpos). simpl in Hal.
  assert (forall al, In al a -> 0 < a0) as Ha0.
  { intros al Hal'. rewrite Forall_forall in Hpos.
    rewrite <- (Heq al Hal'). now apply Hpos. }
  apply Qle_antisym.
  - (* every flat entry is a column entry *)
    destruct (divide_by_alpha_entries _ _ _ Hqf m' Hfm) as [p [al [Hp [Hal' ->]]]].
    apply Hcl. injection Hqc as <-. apply in_flat_map. exists al.
    split; [assumption|]. apply in_map_iff. exists p. auto.
  - (* every column entry equals the flat entry of its row *)
    destruct (divide_by_alpha_entries _ _ _ Hqc m Hcm) as [p [al [Hp [Hal' ->]]]].
    destruct (divide_by_alpha_covers _ _ _ Hqf) with (p := p)
      as [al' [Hal'' Hin2]]; try assumption.
    { subst prod. simpl. now rewrite !length_map. }
    { subst prod. destruct W; simpl; congruence. }
    simpl in Hal', Hal''. specialize (Hfl _ Hin2).
    assert (p / al == p / al') as ->; [|assumption].
    rewrite (Heq al Hal'), (Heq al' Hal''). reflexivity.
Qed.

Lemma get_smallmij_equal_alphas_witness :
  exists m m',
    get_smallmij [1; 0] [11 # 10; 2 # 10] [[1; 0]; [0; 1]] (Column [1; 1])
    = Ok m /\
    get_smallmij [1; 0] [11 # 10; 2 # 10] [[1; 0]; [0; 1]] (Flat [1; 1])
    = Ok m' /\
    m == m'.
Proof.
  apply (get_smallmij_column_agrees_with_flat_for_equal_alphas [1; 0]
           [11 # 10; 2 # 10] [[1; 0]; [0; 1]] [1; 1] 2 1
           sample_pair_column).
  intros al [<-|[<-|[]]]; reflexivity.
Defined.


Lemma get_smallmij_no_rows (vi vj : vec) (alpha_vec : alpha_array) :
  get_smallmij vi vj [] alpha_vec = Raise ValueError.
Proof.
  unfold get_smallmij.
  assert (forall l : vec,
            (quot <- divide_by_alpha [] alpha_vec ;; array_min quot)
            = Raise ValueError) as H.
  { intros _. destruct alpha_vec as [a|a]; simpl.
    - unfold broadcast. destruct a as [|x [|y a]]; reflexivity.
    - induction a as [|al a IH]; simpl in *; auto. }
  unfold broadcast.
  destruct (length vj =? length vi)%nat; [exact (H [])|].
  destruct vj as [|x [|x' vj]]; destruct vi as [|y [|y' vi]];
    try reflexivity; exact (H []).
Qed.

(** X11: with a cone matrix that has no rows [get_smallmij] raises
    [ValueError], whatever the points and the alpha vector are: the
    minimum of an empty array does not exist. *)
Theorem get_smallmij_without_rows_raises (vi vj : vec)
    (alpha_vec : alpha_array) :
  get_smallmij vi vj [] alpha_vec = Raise ValueError.
Proof. exact (get_smallmij_no_rows vi vj alpha_vec). Qed.


(** X14: [get_delta] on no points returns the empty column, without
    looking at the cone; on at least one point and a cone matrix
    without rows it raises [ValueError]. *)
Theorem get_delta_empty_points_and_empty_cone (v : vec) (mu W : matrix)
    (alpha_vec : alpha_array) :
  get_delta [] W alpha_vec = Ok [] /\
  get_delta (v :: mu) [] alpha_vec = Raise ValueError.
Proof.
  split; [reflexivity|].
  unfold get_delta. cbn [length seq for_state nth].
  rewrite get_smallmij_no_rows. reflexivity.
Qed.

(** ** update of the rectangular region *)

Lemma broadcast_ok_iff {A : Type} (f : Q -> Q -> A) (a b : vec) :
  (exists l, broadcast f a b = Ok l) <->
  (length a = length b \/ length a = 1%nat \/ length b = 1%nat).
Proof.
  unfold broadcast. destruct (Nat.eqb_spec (length a) (length b)) as [E|E].
  - split; [auto | eauto].
  - destruct a as [|x [|x' a]]; destruct b as [|y [|y' b]]; simpl in *;
      split; intros H; eauto; try lia;
      destruct H as [l H]; discriminate.
Qed.

Lemma broadcast_length_indep {A B : Type} (f : Q -> Q -> A)
    (g : Q -> Q -> B) (a b : vec) (l : list A) (l' : list B) :
  broadcast f a b = Ok l -> broadcast g a b = Ok l' -> length l = length l'.
Proof.
  unfold broadcast. destruct (length a =? length b)%nat.
  - intros H H'. injection H as <-. injection H' as <-.
    now rewrite !length_map2.
  - destruct a as [|x [|x' a]]; destruct b as [|y [|y' b]];
      try discriminate; intros H H'; injection H as <-; injection H' as <-;
      simpl; rewrite ?length_map; reflexivity.
Qed.

Lemma broadcast_ok_transfer {A B : Type} (f : Q -> Q -> A) (g : Q -> Q -> B)
    (a b b' : vec) (l : list A) :
  broadcast f a b = Ok l -> length b' = length b ->
  exists l', broadcast g a b' = Ok l'.
Proof.
  intros H Hb. apply broadcast_ok_iff. rewrite Hb.
  apply (broadcast_ok_iff f). eauto.
Qed.

Section UpdateAtomic.
Variable sqrt : Q -> Q.

Lemma intersect_atomic (L U : vec) (self self' : RectangularConfidenceRegion)
    (e : exn) :
  length L = length U ->
  intersect L U self = (Raise e, self') -> self' = self.
Proof.
  intros HLU. unfold intersect, bind_m, lift_m, self_m.
  destruct (hyperrectangle_check_intersection (lower self) (upper self) L U)
    as [overlap|e'] eqn:Hc; [|intros H; now injection H].
  destruct overlap; [|unfold set_lower, set_upper; discriminate].
  destruct (broadcast Qmax (lower self) L) as [l|e'] eqn:Hl;
    [|intros H; now injection H].
  unfold set_lower at 1. cbn [upper].
  unfold hyperrectangle_check_intersection in Hc.
  destruct (broadcast Qge_bool (lower self) U) as [c1|] eqn:Hc1;
    [|discriminate].
  cbn [bind] in Hc. destruct (np_any c1); [discriminate|].
  destruct (broadcast Qle_bool (upper self) L) as [c2|] eqn:Hc2;
    [|discriminate].
  destruct (broadcast_ok_transfer Qle_bool Qmin (upper self) L U c2 Hc2
              (eq_sym HLU)) as [u Hu].
  rewrite Hu. unfold set_upper. discriminate.
Qed.

(** X15: [update] changes the region only when it succeeds: whenever it
    raises, on arguments of any shape, neither bound has been
    assigned. *)
Theorem Rectangular_update_is_atomic (mean : vec) (covariance : matrix)
    (scale : scalar_or_vector) (self self' : RectangularConfidenceRegion)
    (e : exn) :
  Rectangular_update sqrt mean covariance scale self = (Raise e, self') ->
  self' = self.
Proof.
  unfold Rectangular_update, bind_m, lift_m, self_m.
  destruct (negb _); [intros H; now injection H|].
  destruct (diag_squeeze covariance) as [d|e']; [|intros H; now injection H].
  destruct (broadcast_sv Qmult (map sqrt d) scale) as [ss|e'];
    [|intros H; now injection H].
  destruct (broadcast Qminus mean ss) as [L|e'] eqn:HL;
    [|intros H; now injection H].
  destruct (broadcast Qplus mean ss) as [U|e'] eqn:HU;
    [|intros H; now injection H].
  destruct (intersect_iteratively self).
  - apply intersect_atomic.
    exact (broadcast_length_indep _ _ _ _ _ _ HL HU).
  - unfold set_lower, set_upper. discriminate.
Qed.

(** X16: [update] rejects a covariance that is not square with
    [AssertionError], and a covariance of shape (1, 1) with
    [ValueError] ([np.diag] of the squeezed, zero-dimensional array);
    the region is left as it was. *)
Theorem Rectangular_update_rejects (mean : vec) (covariance : matrix)
    (scale : scalar_or_vector) (self : RectangularConfidenceRegion) :
  (snd (shape covariance) <> fst (shape covariance) ->
   Rectangular_update sqrt mean covariance scale self
   = (Raise AssertionError, self)) /\
  (shape covariance = (1%nat, 1%nat) ->
   Rectangular_update sqrt mean covariance scale self
   = (Raise ValueError, self)).
Proof.
  unfold Rectangular_update, bind_m, lift_m, diag_squeeze. split.
  - intros H. apply Nat.eqb_neq in H. now rewrite H.
  - intros H. rewrite H. reflexivity.
Qed.

(** X17: after an [update] the region lies inside the box [[L, U]] of
    that update, in each branch; when the region intersects
    iteratively and overlaps [[L, U]], it also lies inside the region
    it was before. *)
Theorem Rectangular_update_stays_inside_new_box (D : nat) (mean : vec)
    (covariance : matrix) (scale : scalar_or_vector)
    (self : RectangularConfidenceRegion) :
  D <> 1%nat -> update_input D mean covariance scale ->
  (intersect_iteratively self = true ->
   length (lower self) = D /\ length (upper self) = D) ->
  let L := update_L sqrt mean covariance scale in
  let U := update_U sqrt mean covariance scale in
  exists self',
    Rectangular_update sqrt mean covariance scale self = (Ok tt, self') /\
    Forall2 Qle L (lower self') /\ Forall2 Qle (upper self') U /\
    (intersect_iteratively self = true ->
     hyperrectangle_check_intersection (lower self) (upper self) L U
       = Ok true ->
     Forall2 Qle (lower self) (lower self') /\
     Forall2 Qle (upper self') (upper self)).
Proof.
  intros HD Hin Hlen L U.
  destruct (Rectangular_update_returns sqrt D mean covariance scale self
              HD Hin Hlen) as [overlap [Hov Hrun]].
  fold L in Hov, Hrun. fold U in Hov, Hrun.
  destruct (update_box_lengths sqrt D mean covariance scale Hin) as [HL HU].
  fold L in HL. fold U in HU.
  eexists. split; [exact Hrun|]. cbn [lower upper].
  assert (forall v : vec, Forall2 Qle v v) as Hrefl.
  { induction v; constructor; [apply Qle_refl | assumption]. }
  assert (intersect_iteratively self && overlap = true ->
          Forall2 Qle L (map2 Qmax (lower self) L) /\
          Forall2 Qle (map2 Qmin (upper self) U) U /\
          Forall2 Qle (lower self) (map2 Qmax (lower self) L) /\
          Forall2 Qle (map2 Qmin (upper self) U) (upper self)) as Hbox.
  { intros Hb. apply andb_prop in Hb. destruct Hb as [Hii _].
    destruct (Hlen Hii) as [Hlo Hup].
    repeat split; apply Forall2_nth_Qle; rewrite ?length_map2;
      (split; [lia|]); intros d Hd;
      rewrite ?length_map2 in Hd;
      rewrite (nth_map2 _ _ _ _ 0 0) by lia;
      first [apply Q.le_max_r | apply Q.le_max_l
            | apply Q.le_min_r | apply Q.le_min_l]. }
  destruct (intersect_iteratively self && overlap) eqn:Hb.
  - destruct (Hbox eq_refl) as (H1 & H2 & H3 & H4). auto.
  - split; [apply Hrefl|]. split; [apply Hrefl|].
    intros Hii Hc. rewrite (Hov Hii) in Hc. injection Hc as ->.
    rewrite Hii in Hb. discriminate.
Qed.

End UpdateAtomic.

Lemma Rectangular_update_is_atomic_witness :
  let self := {| lower := [0; 0; 0]; upper := [1; 1; 1];
                 intersect_iteratively := true |} in
  fst (Rectangular_update sqrt_floor [1; 3] [[4; 0]; [0; 9]] (Scalar 1) self)
  = Raise ValueError /\
  snd (Rectangular_update sqrt_floor [1; 3] [[4; 0]; [0; 9]] (Scalar 1) self)
  = self.
Proof.
  split; [reflexivity|].
  apply (Rectangular_update_is_atomic sqrt_floor [1; 3] [[4; 0]; [0; 9]]
           (Scalar 1) _ _ ValueError).
  reflexivity.
Defined.

Lemma Rectangular_update_rejects_witness :
  let self := {| lower := [0; 0]; upper := [2; 2];
                 intersect_iteratively := true |} in
  Rectangular_update sqrt_floor [1; 3] [[4; 0]] (Scalar 1) self
  = (Raise AssertionError, self) /\
  Rectangular_update sqrt_floor [1] [[4]] (Scalar 1) self
  = (Raise ValueError, self).
Proof.
  split.
  - apply (proj1 (Rectangular_update_rejects sqrt_floor [1; 3] [[4; 0]]
                    (Scalar 1) _)).
    simpl. lia.
  - apply (proj2 (Rectangular_update_rejects sqrt_floor [1] [[4]]
                    (Scalar 1) _)).
    reflexivity.
Defined.

Lemma Rectangular_update_stays_inside_witness :
  let self := {| lower := [0; 0]; upper := [2; 2];
                 intersect_iteratively := true |} in
  let L := update_L sqrt_floor [1; 3] [[4; 0]; [0; 9]] (Scalar 1) in
  let U := update_U sqrt_floor [1; 3] [[4; 0]; [0; 9]] (Scalar 1) in
  exists self',
    Rectangular_update sqrt_floor [1; 3] [[4; 0]; [0; 9]] (Scalar 1) self
      = (Ok tt, self') /\
    Forall2 Qle L (lower self') /\ Forall2 Qle (upper self') U.
Proof.
  destruct (Rectangular_update_stays_inside_new_box sqrt_floor 2 [1; 3]
              [[4; 0]; [0; 9]] (Scalar 1)
              {| lower := [0; 0]; upper := [2; 2];
                 intersect_iteratively := true |})
    as (self' & Hrun & HL & HU & _);
    [discriminate | exact sample_update_input
    | intros _; split; reflexivity |].
  exists self'. repeat split; assumption.
Defined.


(** ** The extended polytope and check_dominates *)


Lemma for_each_find {A : Type} (l : list A) (test : A -> bool) :
  for_each l (fun x => Ok (if test x then Some true else None)) =
  Ok (if existsb test l then Some true else None).
Proof.
  induction l as [|x l IH]; simpl; [reflexivity|].
  destruct (test x); simpl; [reflexivity | exact IH].
Qed.

Lemma for_each_all_none {A R : Type} (l : list A)
    (body : A -> result (option R)) :
  (forall x, In x l -> body x = Ok None) -> for_each l body = Ok None.
Proof.
  induction l as [|x l IH]; intros H; simpl; [reflexivity|].
  rewrite (H x) by now left. simpl. apply IH. intros y Hy. apply H. now right.
Qed.

Lemma extended_polytope_vertex_below (pt : vec) (polytope : matrix) :
  Forall (fun vert => length vert = length pt) polytope ->
  (exists vert, In vert polytope /\
     forall k, (k < length pt)%nat -> nth k vert 0 <= nth k pt 0) ->
  is_pt_in_extended_polytope pt polytope false = Ok true.
Proof.
  intros Hrows [vert [Hin Hle]]. rewrite Forall_forall in Hrows.
  unfold is_pt_in_extended_polytope. cbv zeta.
  rewrite (for_each_ext_in polytope _
             (fun v => Ok (if np_all (map2 Qle_bool v pt) then Some true
                           else None))).
  2:{ intros v Hv. rewrite broadcast_same_length by now apply Hrows.
      cbn [bind]. now destruct (np_all _). }
  rewrite for_each_find.
  match goal with
  | |- context [existsb ?t ?l] => assert (existsb t l = true) as ->
  end; [|reflexivity].
  apply existsb_exists. exists vert. split; [assumption|].
  apply np_all_true. intros k Hk.
  rewrite length_map2, (Hrows _ Hin), Nat.min_id in Hk.
  rewrite (nth_map2 _ _ _ _ 0 0) by (rewrite ?(Hrows _ Hin); lia).
  apply Qle_bool_iff. now apply Hle.
Qed.

(** X21: [is_pt_in_extended_polytope] (without inverted extension)
    returns [True] for every point that is above one of the vertices in
    every coordinate. *)
Theorem extended_polytope_accepts_points_above_a_vertex (pt : vec)
    (polytope : matrix) :
  Forall (fun vert => length vert = length pt) polytope ->
  (exists vert, In vert polytope /\
     forall k, (k < length pt)%nat -> nth k vert 0 <= nth k pt 0) ->
  is_pt_in_extended_polytope pt polytope false = Ok true.
Proof. exact (extended_polytope_vertex_below pt polytope). Qed.

Lemma extended_polytope_above_vertex_witness :
  is_pt_in_extended_polytope [1; 1] [[3; 3]; [0; 0]] false = Ok true.
Proof.
  apply (extended_polytope_accepts_points_above_a_vertex [1; 1]
           [[3; 3]; [0; 0]]); [repeat constructor|].
  exists [0; 0]. split; [right; left; reflexivity|].
  intros [|[|k]] Hk; simpl; try lia; lra.
Defined.


Lemma map_result_in {A B : Type} (f : A -> result B) (l : list A)
    (res : list B) :
  map_result f l = Ok res ->
  forall y, In y res -> exists x, In x l /\ f x = Ok y.
Proof.
  revert res. induction l as [|x l IH]; intros res; simpl.
  - intros H. injection H as <-. intros y [].
  - destruct (f x) as [y0|e] eqn:E; [|discriminate]. cbn [bind].
    destruct (map_result f l) as [ys|e]; [|discriminate]. cbn [bind].
    intros H. injection H as <-. intros y [<-|Hy].
    + exists x. auto.
    + destruct (IH ys eq_refl y Hy) as [x' [Hx' Hf]]. exists x'. auto.
Qed.

Lemma matmul_transpose_row_length (verts cone_matrix res : matrix) :
  matmul_transpose verts cone_matrix = Ok res ->
  forall row, In row res -> length row = length cone_matrix.
Proof.
  intros H row Hrow. unfold matmul_transpose in H.
  destruct (map_result_in _ _ _ H row Hrow) as [v [_ Hv]].
  unfold matmul in Hv.
  match type of Hv with
  | (if ?c then _ else _) = _ => destruct c; [|discriminate Hv]
  end.
  injection Hv as <-. apply length_map.
Qed.

(** X22: [check_dominates] of rectangular regions returns [True] when
    every row of [verts1] has a row of [verts2] that is not above it in
    any coordinate, [verts1] and [verts2] being the arrays the method
    computes: the corners of [obj1] and of [obj2] multiplied by the
    cone matrix.  The slackness plays no role. *)
Theorem check_dominates_when_transformed_corners_are_above (order : Order)
    (obj1 obj2 : RectangularConfidenceRegion) (slackness : scalar_or_vector)
    (verts1 verts2 : matrix) :
  matmul_transpose (hyperrectangle_get_vertices (lower obj1) (upper obj1))
    (ordering_cone_W order) = Ok verts1 ->
  matmul_transpose (hyperrectangle_get_vertices (lower obj2) (upper obj2))
    (ordering_cone_W order) = Ok verts2 ->
  (forall ref_point, In ref_point verts1 ->
     exists vert, In vert verts2 /\
       forall k, (k < length ref_point)%nat ->
         nth k vert 0 <= nth k ref_point 0) ->
  Rectangular_check_dominates order (Rectangular obj1) (Rectangular obj2)
    slackness = Ok true.
Proof.
  intros H1 H2 Hdom.
  unfold Rectangular_check_dominates. cbv zeta.
  cbn [attr_lower attr_upper bind]. rewrite H1. cbn [bind].
  rewrite H2. cbn [bind].
  rewrite for_each_all_none; [reflexivity|].
  intros ref_point Href.
  rewrite extended_polytope_vertex_below; [reflexivity| |].
  - apply Forall_forall. intros vert Hvert.
    rewrite (matmul_transpose_row_length _ _ _ H2 vert Hvert).
    now rewrite (matmul_transpose_row_length _ _ _ H1 ref_point Href).
  - exact (Hdom ref_point Href).
Qed.

Lemma check_dominates_witness :
  Rectangular_check_dominates (cone_order identity_2)
    (Rectangular {| lower := [2; 2]; upper := [3; 3];
                    intersect_iteratively := false |})
    (Rectangular {| lower := [0; 0]; upper := [1; 1];
                    intersect_iteratively := false |})
    (Scalar 0) = Ok true.
Proof.
  eapply (check_dominates_when_transformed_corners_are_above
            (cone_order identity_2)
            {| lower := [2; 2]; upper := [3; 3];
               intersect_iteratively := false |}
            {| lower := [0; 0]; upper := [1; 1];
               intersect_iteratively := false |} (Scalar 0));
    [reflexivity | reflexivity |].
  intros ref_point Href. eexists. split; [left; reflexivity|].
  simpl in Href.
  destruct Href as [<-|[<-|[<-|[<-|[]]]]]; intros [|[|k]] Hk;
    try (simpl in Hk; lia); vm_compute; discriminate.
Defined.


(** [is_dominated] as a test over all pairs of corners. *)
Lemma Rectangular_is_dominated_all_pairs (order : Order)
    (obj1 obj2 : RectangularConfidenceRegion) (slackness : scalar_or_vector)
    (D : nat) :
  length (lower obj1) = D -> length (upper obj1) = D ->
  length (lower obj2) = D -> length (upper obj2) = D ->
  valid_slackness D slackness ->
  Rectangular_is_dominated order (Rectangular obj1) (Rectangular obj2)
    slackness =
  Ok (forallb (fun v1 =>
        forallb (fun v2 => dominates order (plus_slackness v2 slackness) v1)
          (hyperrectangle_get_vertices (lower obj2) (upper obj2)))
        (hyperrectangle_get_vertices (lower obj1) (upper obj1))).
Proof.
  intros Hl1 Hu1 Hl2 Hu2 Hs.
  unfold Rectangular_is_dominated.
  assert ((if (size slackness =? 1)%nat then Ok tt
           else l1 <- attr_lower (Rectangular obj1) ;;
                assert (size slackness =? length l1)%nat) = Ok tt) as ->.
  { destruct (size slackness =? 1)%nat eqn:E; [reflexivity|]. simpl.
    destruct slackness as [s|sv]; simpl in *; [discriminate|].
    rewrite Hs, Hl1, Nat.eqb_refl. reflexivity. }
  cbn [bind attr_lower attr_upper].
  set (verts1 := hyperrectangle_get_vertices (lower obj1) (upper obj1)).
  set (verts2 := hyperrectangle_get_vertices (lower obj2) (upper obj2)).
  set (test := fun v1 v2 => dominates order (plus_slackness v2 slackness) v1).
  rewrite (for_each_ext_in verts1 _
             (fun v1 => Ok (if forallb (test v1) verts2 then None
                            else Some false))).
  2:{ intros vert1 _. rewrite <- for_each_check. apply for_each_ext_in.
      intros vert2 Hin. apply in_vertices_iff, is_vertex_length in Hin.
      rewrite (broadcast_sv_plus D) by (try assumption; lia). simpl.
      unfold test. now destruct (dominates order _ vert1). }
  rewrite (for_each_check verts1 (fun v1 => forallb (test v1) verts2)).
  cbn [bind]. now destruct (forallb _ verts1).
Qed.

Lemma point_box_vertices (p v : vec) :
  In v (hyperrectangle_get_vertices p p) -> v = p.
Proof.
  intros H. apply in_vertices_iff in H. unfold is_vertex in H.
  revert v H. induction p as [|x p IH]; intros v H; simpl in H;
    inversion H; subst; [reflexivity|].
  simpl in *. f_equal; [tauto | now apply IH].
Qed.

Lemma forallb_constant {A : Type} (test : A -> bool) (l : list A) (a : A) :
  l <> [] -> (forall x, In x l -> x = a) -> forallb test l = test a.
Proof.
  intros Hne Hall. destruct (test a) eqn:E.
  - apply forallb_forall. intros x Hx. now rewrite (Hall x Hx).
  - destruct l as [|x l]; [congruence|]. simpl.
    rewrite (Hall x) by now left. now rewrite E.
Qed.

(** X23: for two regions that are single points ([lower = upper]),
    [is_dominated] is one call of the order:
    [order.dominates(p2 + slackness, p1)]. *)
Theorem is_dominated_of_point_regions (order : Order) (p1 p2 : vec)
    (ii1 ii2 : bool) (slackness : scalar_or_vector) (D : nat) :
  length p1 = D -> length p2 = D -> valid_slackness D slackness ->
  Rectangular_is_dominated order
    (Rectangular {| lower := p1; upper := p1; intersect_iteratively := ii1 |})
    (Rectangular {| lower := p2; upper := p2; intersect_iteratively := ii2 |})
    slackness
  = Ok (dominates order (plus_slackness p2 slackness) p1).
Proof.
  intros H1 H2 Hs.
  rewrite (Rectangular_is_dominated_all_pairs _ _ _ _ D) by assumption.
  cbn [lower upper]. f_equal.
  assert (forall p : vec, hyperrectangle_get_vertices p p <> []) as Hne.
  { intros p Hp.
    destruct (product_pairs_binary (combine p p)) as [Hlen _].
    unfold hyperrectangle_get_vertices in Hp. cbv zeta in Hp.
    rewrite Hp in Hlen. simpl in Hlen.
    pose proof (Nat.pow_nonzero 2 (length (combine p p))). lia. }
  rewrite (forallb_constant _ _ p1 (Hne p1) (point_box_vertices p1)).
  exact (forallb_constant
           (fun v2 => dominates order (plus_slackness v2 slackness) p1)
           _ p2 (Hne p2) (point_box_vertices p2)).
Qed.

Lemma is_dominated_of_point_regions_witness :
  Rectangular_is_dominated (cone_order identity_2)
    (Rectangular {| lower := [0; 0]; upper := [0; 0];
                    intersect_iteratively := false |})
    (Rectangular {| lower := [1; 2]; upper := [1; 2];
                    intersect_iteratively := true |})
    (Vector [1; 1])
  = Ok (dominates (cone_order identity_2)
          (plus_slackness [1; 2] (Vector [1; 1])) [0; 0]).
Proof.
  apply (is_dominated_of_point_regions (cone_order identity_2) [0; 0] [1; 2]
           false true (Vector [1; 1]) 2); reflexivity.
Defined.


(** ** The uncovered designs and the alpha vector *)

Section UncoveredSet.

Variable solve : solver_name -> problem -> solve_outcome.
Variable well_shaped : problem -> bool.
Variables (mu : matrix) (eps : Q) (W : matrix).

Lemma getitem_nth {A : Type} (l : list A) (i : nat) (d : A) :
  (i < length l)%nat -> getitem l i = Ok (nth i l d).
Proof.
  intros H. unfold getitem. rewrite (nth_error_nth' l d H). reflexivity.
Qed.

Lemma uncovered_set_no_candidates_acc (p_opt_miss acc : list nat) :
  for_state (fun uncovered_set i =>
      broke <- for_each [] (fun j : nat =>
                 vi <- getitem mu i ;;
                 vj <- getitem mu j ;;
                 c <- is_covered solve well_shaped vi vj eps W ;;
                 if c : bool then Ok (Some tt) else Ok None) ;;
      match broke with
      | Some _ => Ok uncovered_set
      | None => Ok (uncovered_set ++ [i])
      end) p_opt_miss acc = Ok (acc ++ p_opt_miss).
Proof.
  revert acc. induction p_opt_miss as [|i l IH]; intros acc; simpl.
  - now rewrite app_nil_r.
  - rewrite IH, <- app_assoc. reflexivity.
Qed.

(** X24: with an empty returned set [p_opt_hat], [get_uncovered_set]
    returns [p_opt_miss] itself, in its order, without solving any
    problem and without reading [mu]. *)
Theorem get_uncovered_set_without_candidates (p_opt_miss : list nat) :
  get_uncovered_set solve well_shaped p_opt_miss [] mu eps W = Ok p_opt_miss.
Proof.
  unfold get_uncovered_set. now rewrite uncovered_set_no_candidates_acc.
Qed.

(** The inner loop of [get_uncovered_set] for design [i]. *)
Let inner (p_opt_hat : list nat) (i : nat) : result (option unit) :=
  for_each p_opt_hat (fun j =>
    vi <- getitem mu i ;;
    vj <- getitem mu j ;;
    c <- is_covered solve well_shaped vi vj eps W ;;
    if c : bool then Ok (Some tt) else Ok None).

Lemma inner_none (p_opt_hat : list nat) (i : nat) :
  inner p_opt_hat i = Ok None <->
  forall j, In j p_opt_hat -> covers solve well_shaped mu eps W i j = Ok false.
Proof.
  unfold inner, covers. induction p_opt_hat as [|j l IH]; simpl.
  - split; [intros _ j [] | reflexivity].
  - destruct (getitem mu i) as [vi|e]; cbn [bind].
    2:{ split; [discriminate|]. intros H. specialize (H j (or_introl eq_refl)).
        cbn [bind] in H. discriminate H. }
    destruct (getitem mu j) as [vj|e] eqn:Ej; cbn [bind].
    2:{ split; [discriminate|]. intros H. specialize (H j (or_introl eq_refl)).
        rewrite Ej in H. discriminate H. }
    destruct (is_covered solve well_shaped vi vj eps W) as [[|]|e] eqn:Ec;
      cbn [bind].
    + split; [discriminate|]. intros H. specialize (H j (or_introl eq_refl)).
      rewrite Ej in H. cbn [bind] in H. rewrite Ec in H. discriminate H.
    + rewrite IH. split.
      * intros H j' [<-|Hj']; [|now apply H].
        rewrite Ej. cbn [bind]. exact Ec.
      * intros H j' Hj'. apply H. now right.
    + split; [discriminate|]. intros H. specialize (H j (or_introl eq_refl)).
      rewrite Ej in H. cbn [bind] in H. rewrite Ec in H. discriminate H.
Qed.

Lemma uncovered_set_acc (p_opt_hat p_opt_miss acc U : list nat) :
  for_state (fun uncovered_set i =>
      broke <- inner p_opt_hat i ;;
      match broke with
      | Some _ => Ok uncovered_set
      | None => Ok (uncovered_set ++ [i])
      end) p_opt_miss acc = Ok U ->
  forall i, In i U <->
    In i acc \/
    (In i p_opt_miss /\
     forall j, In j p_opt_hat ->
       covers solve well_shaped mu eps W i j = Ok false).
Proof.
  revert acc. induction p_opt_miss as [|i0 l IH]; intros acc; simpl.
  - intros H i. injection H as <-. tauto.
  - destruct (inner p_opt_hat i0) as [[[]|]|e] eqn:E; cbn [bind];
      [| |discriminate]; intros H i; rewrite (IH _ H).
    + assert (~ forall j, In j p_opt_hat ->
                covers solve well_shaped mu eps W i0 j = Ok false) as Hno.
      { intros Hall. apply (proj2 (inner_none p_opt_hat i0)) in Hall.
        congruence. }
      split; [tauto|]. intros [Hacc|[[<-|Hin] Hall]]; tauto.
    + pose proof (proj1 (inner_none p_opt_hat i0) E) as E'.
      rewrite in_app_iff. simpl. split.
      * intros [[Hacc|[<-|[]]]|[Hin Hall]]; auto.
      * intros [Hacc|[[<-|Hin] Hall]]; auto.
Qed.

(** X25: when [get_uncovered_set] returns, a design is in the result if
    and only if it is in [p_opt_miss] and [is_covered] answers [False]
    for it against every design of [p_opt_hat]. *)
Theorem get_uncovered_set_members (p_opt_miss p_opt_hat U : list nat) :
  get_uncovered_set solve well_shaped p_opt_miss p_opt_hat mu eps W = Ok U ->
  forall i, In i U <->
    In i p_opt_miss /\
    forall j, In j p_opt_hat ->
      covers solve well_shaped mu eps W i j = Ok false.
Proof.
  intros H i. unfold get_uncovered_set in H.
  rewrite (uncovered_set_acc p_opt_hat p_opt_miss [] U H i). simpl. tauto.
Qed.

Lemma uncovered_size_acc (p_opt_hat p_opt_miss acc : list nat) :
  Forall (fun i => (i < length mu)%nat) p_opt_miss ->
  Forall (fun j => (j < length mu)%nat) p_opt_hat ->
  for_state (fun count ip =>
      broke <- for_each (map (fun j => nth j mu []) p_opt_hat) (fun jp =>
                 c <- is_covered solve well_shaped ip jp eps W ;;
                 if c : bool then Ok (Some tt) else Ok None) ;;
      match broke with
      | Some _ => Ok count
      | None => Ok (count + 1)%nat
      end) (map (fun i => nth i mu []) p_opt_miss) (length acc) =
  (s <- for_state (fun uncovered_set i =>
      broke <- inner p_opt_hat i ;;
      match broke with
      | Some _ => Ok uncovered_set
      | None => Ok (uncovered_set ++ [i])
      end) p_opt_miss acc ;;
   Ok (length s)).
Proof.
  intros Hmiss Hhat. revert acc.
  induction Hmiss as [|i l Hi Hl IH]; intros acc; [reflexivity|].
  cbn [map for_state].
  assert (for_each (map (fun j => nth j mu []) p_opt_hat) (fun jp =>
            c <- is_covered solve well_shaped (nth i mu []) jp eps W ;;
            if c : bool then Ok (Some tt) else Ok None)
          = inner p_opt_hat i) as ->.
  { unfold inner. clear -Hi Hhat.
    rewrite (getitem_nth mu i []) by assumption.
    induction Hhat as [|j h Hj Hh IHh]; [reflexivity|]. cbn [map for_each].
    rewrite (getitem_nth mu j []) by assumption. cbn [bind].
    destruct (is_covered solve well_shaped _ _ eps W) as [[|]|e];
      cbn [bind]; try reflexivity. exact IHh. }
  destruct (inner p_opt_hat i) as [[[]|]|e]; cbn [bind]; try reflexivity.
  - apply IH.
  - replace (length acc + 1)%nat with (length (acc ++ [i]))
      by (rewrite length_app; reflexivity).
    apply IH.
Qed.

(** X26: [get_uncovered_size], called on the rows of [mu] that the
    indices select, returns the number of designs that
    [get_uncovered_set] returns for these indices, and raises what it
    raises. *)
Theorem get_uncovered_size_counts_uncovered_set (p_opt_miss p_opt_hat : list nat) :
  Forall (fun i => (i < length mu)%nat) p_opt_miss ->
  Forall (fun j => (j < length mu)%nat) p_opt_hat ->
  get_uncovered_size solve well_shaped
    (map (fun i => nth i mu []) p_opt_miss)
    (map (fun j => nth j mu []) p_opt_hat) eps W =
  (s <- get_uncovered_set solve well_shaped p_opt_miss p_opt_hat mu eps W ;;
   Ok (length s)).
Proof.
  intros Hm Hh. unfold get_uncovered_size, get_uncovered_set.
  exact (uncovered_size_acc p_opt_hat p_opt_miss [] Hm Hh).
Qed.

End UncoveredSet.

Lemma get_uncovered_set_members_witness :
  In 1%nat [0; 1]%nat <->
  In 1%nat [0; 1]%nat /\
  forall j, In j [2%nat] ->
    covers solver_infeasible all_shapes_ok
      [[1; 0]; [11 # 10; 2 # 10]; [1 # 2; 8 # 10]] (1 # 10) identity_2 1 j
    = Ok false.
Proof.
  apply (get_uncovered_set_members solver_infeasible all_shapes_ok
           [[1; 0]; [11 # 10; 2 # 10]; [1 # 2; 8 # 10]] (1 # 10) identity_2
           [0; 1]%nat [2%nat] [0; 1]%nat).
  reflexivity.
Defined.

Lemma get_uncovered_size_witness :
  let mu := [[1; 0]; [11 # 10; 2 # 10]; [1 # 2; 8 # 10]] in
  get_uncovered_size solver_infeasible all_shapes_ok
    (map (fun i => nth i mu []) [0; 1]%nat)
    (map (fun j => nth j mu []) [2%nat]) (1 # 10) identity_2 =
  (s <- get_uncovered_set solver_infeasible all_shapes_ok [0; 1]%nat
          [2%nat] mu (1 # 10) identity_2 ;;
   Ok (length s)).
Proof.
  apply (get_uncovered_size_counts_uncovered_set solver_infeasible
           all_shapes_ok [[1; 0]; [11 # 10; 2 # 10]; [1 # 2; 8 # 10]]
           (1 # 10) identity_2 [0; 1]%nat [2%nat]);
    repeat constructor.
Defined.


Lemma length_set_item {A : Type} (i : nat) (x : A) (l : list A) :
  length (set_item i x l) = length l.
Proof.
  revert i. induction l as [|h t IH]; intros [|i]; simpl; auto.
Qed.

Lemma nth_error_set_item_eq {A : Type} (i : nat) (x : A) (l : list A) :
  (i < length l)%nat -> nth_error (set_item i x l) i = Some x.
Proof.
  revert i. induction l as [|h t IH]; intros [|i] H; simpl in *; try lia; auto.
  apply IH. lia.
Qed.

Lemma nth_error_set_item_neq {A : Type} (i k : nat) (x : A) (l : list A) :
  k <> i -> nth_error (set_item i x l) k = nth_error l k.
Proof.
  revert i k. induction l as [|h t IH]; intros [|i] [|k] H; simpl; auto;
    congruence.
Qed.

Section AlphaVec.

Variable solve : solver_name -> problem -> solve_outcome.
Variable well_shaped : problem -> bool.
Variable W : matrix.

Lemma fill_rows (idx : list nat) :
  NoDup idx ->
  forall acc res,
    Forall (fun i => (i < length acc)%nat) idx ->
    for_state (fun alpha_vec i =>
                 a <- get_alpha solve well_shaped i W ;;
                 Ok (set_item i [a] alpha_vec)) idx acc = Ok res ->
    length res = length acc /\
    forall i,
      (In i idx ->
       exists a, get_alpha solve well_shaped i W = Ok a /\
                 nth_error res i = Some [a]) /\
      (~ In i idx -> nth_error res i = nth_error acc i).
Proof.
  induction 1 as [|i0 idx Hni Hnd IH]; intros acc res Hlt; simpl.
  - intros H. injection H as <-. split; [reflexivity|].
    intros i. split; [intros [] | reflexivity].
  - destruct (get_alpha solve well_shaped i0 W) as [a|e] eqn:Ea;
      [|discriminate].
    cbn [bind]. intros Hrun.
    pose proof (Forall_inv Hlt) as Hi0. simpl in Hi0.
    destruct (IH (set_item i0 [a] acc) res) as [Hlen Hent].
    { rewrite length_set_item. exact (Forall_inv_tail Hlt). }
    { exact Hrun. }
    rewrite length_set_item in Hlen. split; [assumption|].
    intros i. destruct (Hent i) as [Hin Hout]. split.
    + intros [<-|Hi]; [|now apply Hin].
      exists a. split; [assumption|].
      rewrite Hout by assumption. now apply nth_error_set_item_eq.
    + intros Hnot. rewrite Hout by tauto.
      apply nth_error_set_item_neq. intros ->. apply Hnot. now left.
Qed.

Lemma fill_rows_raise (idx : list nat) (e : exn) :
  forall acc,
    for_state (fun alpha_vec i =>
                 a <- get_alpha solve well_shaped i W ;;
                 Ok (set_item i [a] alpha_vec)) idx acc = Raise e ->
    exists i, In i idx /\ get_alpha solve well_shaped i W = Raise e.
Proof.
  induction idx as [|i0 idx IH]; intros acc; simpl; [discriminate|].
  destruct (get_alpha solve well_shaped i0 W) as [a|e'] eqn:Ea; cbn [bind].
  - intros H. destruct (IH _ H) as [i [Hi Hr]]. exists i. auto.
  - intros H. injection H as ->. exists i0. auto.
Qed.

(** X27: when [get_alpha_vec] returns, the result is a column with one
    entry per row of [W], and entry [i] is what [get_alpha(i, W)]
    returns; when it raises, some call [get_alpha(i, W)] for a row [i]
    of [W] raised that exception, and it is never an [IndexError]. *)
Theorem get_alpha_vec_one_alpha_per_row :
  (forall alpha_vec,
     get_alpha_vec solve well_shaped W = Ok alpha_vec ->
     length alpha_vec = length W /\
     forall i, (i < length W)%nat ->
       exists a, get_alpha solve well_shaped i W = Ok a /\
                 nth_error alpha_vec i = Some [a]) /\
  (forall e,
     get_alpha_vec solve well_shaped W = Raise e ->
     e <> IndexError /\
     exists i, (i < length W)%nat /\
       get_alpha solve well_shaped i W = Raise e).
Proof.
  unfold get_alpha_vec. cbv zeta. cbn [shape fst]. split.
  - intros alpha_vec H.
    assert (Forall (fun i => (i < length (repeat [Finite 0] (length W)))%nat)
              (seq 0 (length W))) as Hlt.
    { apply Forall_forall. intros i Hi. apply in_seq in Hi.
      rewrite repeat_length. lia. }
    destruct (fill_rows (seq 0 (length W)) (seq_NoDup _ _)
                (repeat [Finite 0] (length W)) alpha_vec Hlt H)
      as [Hlen Hent].
    rewrite repeat_length in Hlen. split; [assumption|].
    intros i Hi. apply Hent. apply in_seq. lia.
  - intros e H. apply fill_rows_raise in H. destruct H as [i [Hi Hr]].
    apply in_seq in Hi. split; [|exists i; split; [lia | assumption]].
    intros ->. unfold get_alpha, alpha_problem in Hr. cbv zeta in Hr.
    rewrite (getitem_nth W i []) in Hr by lia. cbn [bind] in Hr.
    unfold cp_Problem, prob_solve in Hr.
    destruct (well_shaped _); [|discriminate]. cbn [bind] in Hr.
    destruct (solve DEFAULT _) as [sol|]; [|discriminate]. cbn [bind] in Hr.
    destruct (value sol); discriminate.
Qed.

End AlphaVec.

Lemma get_alpha_vec_witness :
  exists alpha_vec,
    get_alpha_vec (solver_reporting (Some "optimal"%string)) all_shapes_ok
      identity_2 = Ok alpha_vec /\
    length alpha_vec = length identity_2 /\
    forall i, (i < length identity_2)%nat ->
      exists a,
        get_alpha (solver_reporting (Some "optimal"%string)) all_shapes_ok
          i identity_2 = Ok a /\
        nth_error alpha_vec i = Some [a].
Proof.
  eexists. split; [reflexivity|].
  apply (proj1 (get_alpha_vec_one_alpha_per_row
                  (solver_reporting (Some "optimal"%string)) all_shapes_ok
                  identity_2)).
  reflexivity.
Defined.
